(** * Animal-conflict contests and the evolutionary engine

    A shallow embedding of [OriginalSimulation.py] and
    [GenerationalResult.py].

    - Python integers are [Z]; moves are Python strings, hence [string]
      (a strategy may return any string, not only 'C', 'D' and 'R').
    - Python floats (frequencies, fitness, random draws) are the
      rationals [Q] they denote, and their sums, products and quotients are
      taken exactly, with one exception: in [int(freq * population_size)]
      the rounding of the product decides how many individuals are built,
      so there the integer is converted and the product rounded as
      binary64 does it ([float_of_int], [float_mul]).  No double lies
      strictly between 1/10 and the double nearest to it, so [u < 0.1] on
      doubles and [u < 1#10] on the rationals they denote agree; likewise
      for 0.05 and 0.01.
    - Exceptions and the mutable interpreter state are threaded by the
      state-and-error monad [M].
    - The module-level [random] generator is a stream of draws from
      [0, 1) together with the number of draws consumed so far.  The
      library calls [randrange], [choices] and [shuffle] are modelled after
      their CPython definitions, each consuming draws of that stream.
    - Console output is left out. *)

From Stdlib Require Import ZArith QArith Qround Qminmax Qpower Qabs List String
  Bool Lia Lqa.
Import ListNotations.
Local Open Scope Z_scope.

(** ** Exceptions and the state-and-error monad *)

Inductive exn : Type :=
| NotImplementedError
| IndexError
| ValueError
| ZeroDivisionError.

Inductive res (A : Type) : Type :=
| Ok (a : A)
| Raise (e : exn).
Arguments Ok {A} a.
Arguments Raise {A} e.

Definition M (S A : Type) : Type := S -> res A * S.

Definition ret {S A : Type} (a : A) : M S A := fun s => (Ok a, s).

Definition raise {S A : Type} (e : exn) : M S A := fun s => (Raise e, s).

Definition bind {S A B : Type} (m : M S A) (k : A -> M S B) : M S B :=
  fun s =>
    match m s with
    | (Ok a, s') => k a s'
    | (Raise e, s') => (Raise e, s')
    end.

Notation "x <- m ;; k" := (bind m (fun x => k))
  (at level 61, m at next level, right associativity).
Notation "m ;;; k" := (bind m (fun _ => k))
  (at level 61, right associativity).

(** ** The shared pseudo-random source *)

Record Rng : Type := mkRng { draws : nat -> Q; pos : nat }.

(** [random.random()]: the next draw of the stream, and the generator
    advanced by one. *)
Definition next_draw (g : Rng) : Q * Rng :=
  (draws g (pos g), mkRng (draws g) (Datatypes.S (pos g))).

Definition rng_random : M Rng Q :=
  fun g => let '(u, g') := next_draw g in (Ok u, g').

(** Every draw of [random.random()] lies in [0, 1). *)
Definition valid_rng (g : Rng) : Prop :=
  forall i : nat, (0 <= draws g i)%Q /\ (draws g i < 1)%Q.

Definition Qltb (x y : Q) : bool := negb (Qle_bool y x).

(** ** Adjustable parameters and payoffs (identical in both files) *)

Definition MAX_MOVES : Z := 10.
Definition P_INJURY : Q := 1 # 10.
Definition TIME_BONUS_START : Z := 20.
Definition TIME_BONUS_DECREMENT : Z := 2.
Definition POPULATION_SIZE : Z := 200.
Definition GENERATIONS : Z := 50.
Definition MUTATION_RATE : Q := 1 # 100.
Definition PROBE_PROB : Q := 5 # 100.

Definition WIN_PAYOFF : Z := 60.
Definition SERIOUS_INJURY : Z := -100.
Definition SCRATCH : Z := -2.

(** ** Python list idioms on histories *)

Definition len {A : Type} (l : list A) : Z := Z.of_nat (List.length l).

(** ['D' in h] *)
Definition py_in (m : string) (h : list string) : bool :=
  existsb (String.eqb m) h.

(** [len(h) > 0 and h[-1] == m] (also [h and h[-1] == m]) *)
Definition last_is (m : string) (h : list string) : bool :=
  match rev h with
  | [] => false
  | x :: _ => String.eqb x m
  end.

(** [h[-k:]] for a non-negative [k]. *)
Definition py_suffix {A : Type} (k : nat) (h : list A) : list A :=
  skipn (List.length h - k) h.

(** ** Strategies of OriginalSimulation.py

    [Mouse] and [ProberRetaliator], the two classes whose decision rule is
    written differently from their namesakes in GenerationalResult.py and
    is compared with them below. *)

Module Original.

Module Mouse.
Record t : Type := mk { opponent_d_played : bool }.

Definition reset (self : t) : t := mk false.

Definition choose_move (self : t) (my_history opp_history : list string)
  : string * t :=
  let self :=
    if last_is "D" opp_history then mk true else self in
  if opponent_d_played self then ("R"%string, self)
  else if len my_history <? MAX_MOVES then ("C"%string, self)
  else ("R"%string, self).
End Mouse.

Module ProberRetaliator.
Record t : Type := mk { state : string; move_count : Z; has_probed : bool }.

Definition reset (self : t) : t := mk "C" 0 false.

(** The [if opp_history:] block that updates [self.state]. *)
Definition observe (self : t) (opp_history : list string) : t :=
  match opp_history with
  | [] => self
  | _ :: _ =>
    if last_is "D" opp_history
    then mk "C" (move_count self) (has_probed self)
    else if has_probed self && String.eqb (state self) "D"
         then mk "D" (move_count self) (has_probed self)
         else mk "C" (move_count self) (has_probed self)
  end.

Definition choose_move (self : t) (my_history opp_history : list string)
  (g : Rng) : string * t * Rng :=
  let self := mk (state self) (move_count self + 1) (has_probed self) in
  if MAX_MOVES <? move_count self then ("R"%string, self, g)
  else if negb (has_probed self) && (len my_history =? 0) then
    let '(u, g') := next_draw g in
    if Qltb u PROBE_PROB
    then ("D"%string, mk "D" (move_count self) true, g')
    else let self := observe self opp_history in (state self, self, g')
  else let self := observe self opp_history in (state self, self, g).
End ProberRetaliator.

Module Hawk.
Definition choose_move (my_history opp_history : list string) : string :=
  "D"%string.
End Hawk.

Module Bully.
Record t : Type := mk { first_move : bool; d_streak : Z }.

Definition reset (self : t) : t := mk true 0.

Definition choose_move (self : t) (my_history opp_history : list string)
  : string * t :=
  if first_move self then ("D"%string, mk false (d_streak self))
  else
    let self :=
      if last_is "D" opp_history
      then mk (first_move self) (d_streak self + 1)
      else mk (first_move self) 0 in
    if 2 <=? d_streak self then ("R"%string, self) else ("C"%string, self).
End Bully.

Module Retaliator.
Record t : Type := mk { state : string; move_count : Z }.

Definition reset (self : t) : t := mk "C" 0.

Definition choose_move (self : t) (my_history opp_history : list string)
  : string * t :=
  let self := mk (state self) (move_count self + 1) in
  if MAX_MOVES <? move_count self then ("R"%string, self)
  else
    let self :=
      match opp_history with
      | [] => self
      | _ :: _ =>
        if last_is "D" opp_history
        then mk "D" (move_count self)
        else mk "C" (move_count self)
      end in
    (state self, self).
End Retaliator.

End Original.

(** ** Strategies of GenerationalResult.py *)

Module Generational.

Module Mouse.
Record t : Type := mk { opponent_d_played : bool }.

Definition reset (self : t) : t := mk false.

Definition choose_move (self : t) (my_history opp_history : list string)
  : string * t :=
  let self :=
    if py_in "D" opp_history then mk true else self in
  if (len my_history <? MAX_MOVES) && negb (opponent_d_played self)
  then ("C"%string, self)
  else ("R"%string, self).
End Mouse.

Module Hawk.
Definition choose_move (my_history opp_history : list string) : string :=
  "D"%string.
End Hawk.

Module Bully.
Record t : Type := mk { first_move : bool; d_streak : Z }.

Definition reset (self : t) : t := mk true 0.

Definition choose_move (self : t) (my_history opp_history : list string)
  : string * t :=
  if first_move self then ("D"%string, mk false (d_streak self))
  else
    let self :=
      if last_is "D" opp_history
      then mk (first_move self) (d_streak self + 1)
      else mk (first_move self) 0 in
    if 2 <=? d_streak self then ("R"%string, self) else ("C"%string, self).
End Bully.

Module Retaliator.
Record t : Type := mk { state : string; move_count : Z }.

Definition reset (self : t) : t := mk "C" 0.

Definition choose_move (self : t) (my_history opp_history : list string)
  : string * t :=
  let self := mk (state self) (move_count self + 1) in
  if MAX_MOVES <? move_count self then ("R"%string, self)
  else if last_is "D" opp_history then ("D"%string, self)
  else ("C"%string, self).
End Retaliator.

Module ProberRetaliator.
Record t : Type := mk { move_count : Z; has_probed : bool }.

Definition reset (self : t) : t := mk 0 false.

(** The part of [choose_move] after the probe attempt. *)
Definition respond (self : t) (opp_history : list string) : string :=
  if last_is "D" opp_history then "C"%string
  else if has_probed self then "D"%string
  else "C"%string.

Definition choose_move (self : t) (my_history opp_history : list string)
  (g : Rng) : string * t * Rng :=
  let self := mk (move_count self + 1) (has_probed self) in
  if MAX_MOVES <? move_count self then ("R"%string, self, g)
  else if negb (has_probed self) && (len my_history =? 0) then
    let '(u, g') := next_draw g in
    if Qltb u PROBE_PROB
    then ("D"%string, mk (move_count self) true, g')
    else (respond self opp_history, self, g')
  else (respond self opp_history, self, g).
End ProberRetaliator.

Module LongRetaliator.
Record t : Type := mk { move_count : Z }.

Definition reset (self : t) : t := mk 0.

Definition choose_move (self : t) (my_history opp_history : list string)
  : string * t :=
  let self := mk (move_count self + 1) in
  if MAX_MOVES <? move_count self then ("R"%string, self)
  else if (2 <=? len opp_history) && py_in "D" (py_suffix 2 opp_history)
       then ("D"%string, self)
       else ("C"%string, self).
End LongRetaliator.

(** The strategy classes, used as values ([strategies = [Mouse, Hawk, ...]]). *)
Inductive StrategyClass : Type :=
| cMouse
| cHawk
| cBully
| cRetaliator
| cProberRetaliator
| cLongRetaliator.

(** [s is t] on classes. *)
Definition class_eqb (s t : StrategyClass) : bool :=
  match s, t with
  | cMouse, cMouse | cHawk, cHawk | cBully, cBully
  | cRetaliator, cRetaliator | cProberRetaliator, cProberRetaliator
  | cLongRetaliator, cLongRetaliator => true
  | _, _ => false
  end.

(** [s.__name__] *)
Definition class_name (s : StrategyClass) : string :=
  match s with
  | cMouse => "Mouse"
  | cHawk => "Hawk"
  | cBully => "Bully"
  | cRetaliator => "Retaliator"
  | cProberRetaliator => "ProberRetaliator"
  | cLongRetaliator => "LongRetaliator"
  end.

(** A strategy instance: its class together with its attributes. *)
Inductive obj : Type :=
| MouseObj (self : Mouse.t)
| HawkObj
| BullyObj (self : Bully.t)
| RetaliatorObj (self : Retaliator.t)
| ProberRetaliatorObj (self : ProberRetaliator.t)
| LongRetaliatorObj (self : LongRetaliator.t).

(** [strat()]: every [__init__] only calls [reset]; [Hawk] has no
    attributes. *)
Definition new (s : StrategyClass) : obj :=
  match s with
  | cMouse => MouseObj (Mouse.reset (Mouse.mk false))
  | cHawk => HawkObj
  | cBully => BullyObj (Bully.reset (Bully.mk true 0))
  | cRetaliator => RetaliatorObj (Retaliator.reset (Retaliator.mk "C" 0))
  | cProberRetaliator =>
    ProberRetaliatorObj (ProberRetaliator.reset (ProberRetaliator.mk 0 false))
  | cLongRetaliator => LongRetaliatorObj (LongRetaliator.reset (LongRetaliator.mk 0))
  end.

Definition class_of (o : obj) : StrategyClass :=
  match o with
  | MouseObj _ => cMouse
  | HawkObj => cHawk
  | BullyObj _ => cBully
  | RetaliatorObj _ => cRetaliator
  | ProberRetaliatorObj _ => cProberRetaliator
  | LongRetaliatorObj _ => cLongRetaliator
  end.

(** [isinstance(ind, s)]: none of the six classes derives from another. *)
Definition isinstance (ind : obj) (s : StrategyClass) : bool :=
  class_eqb (class_of ind) s.

(** Method dispatch. *)
Definition obj_reset (o : obj) : obj :=
  match o with
  | MouseObj self => MouseObj (Mouse.reset self)
  | HawkObj => HawkObj
  | BullyObj self => BullyObj (Bully.reset self)
  | RetaliatorObj self => RetaliatorObj (Retaliator.reset self)
  | ProberRetaliatorObj self => ProberRetaliatorObj (ProberRetaliator.reset self)
  | LongRetaliatorObj self => LongRetaliatorObj (LongRetaliator.reset self)
  end.

Definition obj_choose_move (o : obj) (my_history opp_history : list string)
  (g : Rng) : string * obj * Rng :=
  match o with
  | MouseObj self =>
    let '(m, self') := Mouse.choose_move self my_history opp_history in
    (m, MouseObj self', g)
  | HawkObj => (Hawk.choose_move my_history opp_history, HawkObj, g)
  | BullyObj self =>
    let '(m, self') := Bully.choose_move self my_history opp_history in
    (m, BullyObj self', g)
  | RetaliatorObj self =>
    let '(m, self') := Retaliator.choose_move self my_history opp_history in
    (m, RetaliatorObj self', g)
  | ProberRetaliatorObj self =>
    let '(m, self', g') :=
      ProberRetaliator.choose_move self my_history opp_history g in
    (m, ProberRetaliatorObj self', g')
  | LongRetaliatorObj self =>
    let '(m, self') := LongRetaliator.choose_move self my_history opp_history in
    (m, LongRetaliatorObj self', g)
  end.

End Generational.

(** ** play_contest (the same function, line for line, in both files) *)

(** The local variables of [play_contest] that live across rounds. *)
Record locals : Type := mkLocals {
  A_history : list string;
  B_history : list string;
  A_score : Z;
  B_score : Z }.

(** What one pass through the loop body does: [return] a score pair, or
    fall through to the next round. *)
Inductive flow : Type :=
| Return (scores : Z * Z)
| Next (l : locals).

Definition time_bonus (moves : Z) : Z :=
  TIME_BONUS_START - TIME_BONUS_DECREMENT * moves.

Section Contest.

(** The strategy objects reachable from the two arguments; the two may be
    one and the same object. *)
Variable H : Type.

Definition World : Type := (H * Rng)%type.

(** The interface of [class Strategy]: bound methods acting on the
    objects and on the shared generator, free to raise.  The histories are
    handed over as values: no strategy class writes to them. *)
Record Strategy : Type := mkStrategy {
  reset : M World unit;
  choose_move : list string -> list string -> M World string }.

(** [class Strategy] itself. *)
Definition base_strategy : Strategy :=
  {| reset := ret tt;
     choose_move := fun _ _ => raise NotImplementedError |}.

Definition world_random : M World Q :=
  fun w => let '(u, g') := next_draw (snd w) in (Ok u, (fst w, g')).

(** A strategy object none of whose methods raises. *)
Definition never_raises (s : Strategy) : Prop :=
  (forall w, exists w', reset s w = (Ok tt, w')) /\
  (forall my_history opp_history w,
      exists m w', choose_move s my_history opp_history w = (Ok m, w')).

(** A strategy object whose methods touch the shared generator only by
    drawing from it. *)
Definition draws_only (s : Strategy) : Prop :=
  (forall w r w', reset s w = (r, w') ->
                  exists k, snd w' = mkRng (draws (snd w)) (k + pos (snd w))) /\
  (forall my_history opp_history w r w',
      choose_move s my_history opp_history w = (r, w') ->
      exists k, snd w' = mkRng (draws (snd w)) (k + pos (snd w))).

Variables strategyA strategyB : Strategy.

(** [if A_move == 'D': ...]: a score pair to return, or the new [B_score]. *)
Definition dangerous_A (moves : Z) (A_move : string) (A_score B_score : Z)
  : M World (Z * Z + Z) :=
  if String.eqb A_move "D" then
    u <- world_random ;;
    if Qltb u P_INJURY
    then ret (inl (A_score + WIN_PAYOFF + Z.max (time_bonus moves) 0,
                   B_score + SERIOUS_INJURY))
    else ret (inr (B_score + SCRATCH))
  else ret (inr B_score).

(** [if B_move == 'D': ...]: a score pair to return, or the new [A_score]. *)
Definition dangerous_B (moves : Z) (B_move : string) (A_score B_score : Z)
  : M World (Z * Z + Z) :=
  if String.eqb B_move "D" then
    u <- world_random ;;
    if Qltb u P_INJURY
    then ret (inl (A_score + SERIOUS_INJURY,
                   B_score + WIN_PAYOFF + Z.max (time_bonus moves) 0))
    else ret (inr (A_score + SCRATCH))
  else ret (inr A_score).

(** The loop body from the two [append]s on. *)
Definition resolve (moves : Z) (l : locals) (A_move B_move : string)
  : M World flow :=
  let A_history' := A_history l ++ [A_move] in
  let B_history' := B_history l ++ [B_move] in
  if String.eqb A_move "R" && String.eqb B_move "R" then
    ret (Return (A_score l, B_score l))
  else if String.eqb A_move "R" then
    ret (Return (A_score l,
                 B_score l + WIN_PAYOFF + Z.max (time_bonus moves) 0))
  else if String.eqb B_move "R" then
    ret (Return (A_score l + WIN_PAYOFF + Z.max (time_bonus moves) 0,
                 B_score l))
  else
    a <- dangerous_A moves A_move (A_score l) (B_score l) ;;
    match a with
    | inl scores => ret (Return scores)
    | inr B_score' =>
      b <- dangerous_B moves B_move (A_score l) B_score' ;;
      match b with
      | inl scores => ret (Return scores)
      | inr A_score' =>
        ret (Next (mkLocals A_history' B_history' A_score' B_score'))
      end
    end.

Definition round_body (moves : Z) (l : locals) : M World flow :=
  A_move <- choose_move strategyA (A_history l) (B_history l) ;;
  B_move <- choose_move strategyB (B_history l) (A_history l) ;;
  resolve moves l A_move B_move.

(** [for moves in range(MAX_MOVES): ...] with [n] rounds left, followed by
    the final [return (A_score, B_score)]. *)
Fixpoint for_range (n : nat) (moves : Z) (l : locals) : M World (Z * Z) :=
  match n with
  | O => ret (A_score l, B_score l)
  | Datatypes.S n' =>
    f <- round_body moves l ;;
    match f with
    | Return scores => ret scores
    | Next l' => for_range n' (moves + 1) l'
    end
  end.

Definition play_contest : M World (Z * Z) :=
  reset strategyA ;;;
  reset strategyB ;;;
  for_range (Z.to_nat MAX_MOVES) 0 (mkLocals [] [] 0 0).

(** The contest started in world [w0] arrives at the top of round [r]
    (0-indexed) with locals [l] in world [w]. *)
Inductive at_round (w0 : World) : nat -> locals -> World -> Prop :=
| at_start : forall w1 w2,
    reset strategyA w0 = (Ok tt, w1) ->
    reset strategyB w1 = (Ok tt, w2) ->
    at_round w0 O (mkLocals [] [] 0 0) w2
| at_next : forall r l w l' w',
    at_round w0 r l w ->
    round_body (Z.of_nat r) l w = (Ok (Next l'), w') ->
    at_round w0 (Datatypes.S r) l' w'.

End Contest.

(** The state in which the contest started in [w0] arrives at the top of
    round [r], computed by running the first [r] rounds; [None] when the
    contest has returned or raised before. *)
Fixpoint arrive (H : Type) (strategyA strategyB : Strategy H) (r : nat)
  (w0 : World H) : option (locals * World H) :=
  match r with
  | O =>
    match reset H strategyA w0 with
    | (Ok tt, w1) =>
      match reset H strategyB w1 with
      | (Ok tt, w2) => Some (mkLocals [] [] 0 0, w2)
      | (Raise _, _) => None
      end
    | (Raise _, _) => None
    end
  | Datatypes.S r' =>
    match arrive H strategyA strategyB r' w0 with
    | Some (l, w) =>
      match round_body H strategyA strategyB (Z.of_nat r') l w with
      | (Ok (Next l'), w') => Some (l', w')
      | _ => None
      end
    | None => None
    end
  end.

Arguments reset {H} s w.
Arguments choose_move {H} s my_history opp_history w.
Arguments at_start {H strategyA strategyB w0} w1 w2 _ _.
Arguments at_next {H strategyA strategyB w0 r l w} l' w' _ _.

(** ** The library functions the engine calls *)

(** [l[i]] and [l[i] = v] for a non-negative index. *)
Definition getitem {S A : Type} (l : list A) (i : nat) : M S A :=
  match nth_error l i with
  | Some x => ret x
  | None => raise IndexError
  end.

Definition set_nth {A : Type} (l : list A) (i : nat) (v : A) : list A :=
  firstn i l ++ v :: skipn (Datatypes.S i) l.

Definition setitem {S A : Type} (l : list A) (i : nat) (v : A) : M S (list A) :=
  if (i <? List.length l)%nat then ret (set_nth l i v) else raise IndexError.

(** [int(x)] on a float: truncation toward zero. *)
Definition py_int (x : Q) : Z := Z.quot (Qnum x) (Zpos (Qden x)).

(** ** Binary64 arithmetic

    A finite double is a rational [m * 2 ^ q] with [|m| <= 2 ^ 53] and
    [-1074 <= q].  A float operation returns the double nearest to the
    exact result, a tie going to the even significand (IEEE 754
    roundTiesToEven, the only mode CPython runs in). *)

(** The integer nearest to [x], a tie going to the even one. *)
Definition round_half_even (x : Q) : Z :=
  let f := Qfloor x in
  let r := (x - inject_Z f)%Q in
  if Qltb r (1 # 2) then f
  else if Qltb (1 # 2) r then f + 1
  else if Z.even f then f else f + 1.

(** [floor (log2 x)] for [0 < x]: the quotient of the two bit lengths is
    off by at most one. *)
Definition ilog2 (x : Q) : Z :=
  let e := Z.log2 (Qnum x) - Z.log2 (Zpos (Qden x)) in
  if Qltb x (2 ^ e)%Q then e - 1 else e.

(** The double nearest to [x].  With [e = floor (log2 |x|)], and [-1022]
    in its place for the subnormal numbers below [2 ^ -1022], the doubles
    from [2 ^ e] to [2 ^ (e + 1)] are the multiples of [2 ^ (e - 52)]. *)
Definition round_double (x : Q) : Q :=
  if Qeq_bool x 0 then 0%Q
  else
    let a := Qabs x in
    let quantum := (2 ^ (Z.max (ilog2 a) (-1022) - 52))%Q in
    let m := inject_Z (round_half_even (a / quantum)) in
    if Qltb x 0 then (- (m * quantum))%Q else (m * quantum)%Q.

(** The reals that round to a finite double: those below the midpoint of
    the largest double, [2 ^ 1024 - 2 ^ 971], and [2 ^ 1024].  From there
    on [float(n)] raises OverflowError and a product is an infinity, on
    which [int] raises OverflowError; [round_double] is the operation within
    this range only. *)
Definition float_finite (x : Q) : Prop :=
  (Qabs x < 2 ^ 1024 - 2 ^ 970)%Q.

(** [float(n)], the conversion an [int] operand of a float operation
    undergoes. *)
Definition float_of_int (n : Z) : Q := round_double (inject_Z n).

(** [a * b] on floats. *)
Definition float_mul (a b : Q) : Q := round_double (a * b).

(** [random._randbelow(n)] for [n > 0]: one draw [u] scaled to [0, n). *)
Definition randbelow (n : Z) : M Rng Z :=
  u <- rng_random ;;
  ret (Qfloor (u * inject_Z n)).

(** [random.randrange(n)] *)
Definition randrange (n : Z) : M Rng Z :=
  if n <=? 0 then raise ValueError else randbelow n.

(** [itertools.accumulate(weights)] *)
Fixpoint accumulate_from (total : Q) (ws : list Q) : list Q :=
  match ws with
  | [] => []
  | w :: ws' => (total + w)%Q :: accumulate_from (total + w)%Q ws'
  end.

Definition accumulate (ws : list Q) : list Q :=
  match ws with
  | [] => []
  | w :: ws' => w :: accumulate_from w ws'
  end.

(** [bisect.bisect(a, x, 0, hi)] on a sorted [a]: the first index below
    [hi] whose entry exceeds [x], else [hi]. *)
Fixpoint bisect (a : list Q) (x : Q) (hi : nat) : nat :=
  match hi, a with
  | Datatypes.S hi', e :: a' =>
    if Qltb x e then O else Datatypes.S (bisect a' x hi')
  | _, _ => O
  end.

(** [random.choices(population, weights=weights)[0]] *)
Definition choices {A : Type} (population : list A) (weights : list Q)
  : M Rng A :=
  let n := List.length population in
  let cum_weights := accumulate weights in
  if negb (List.length cum_weights =? n)%nat then raise ValueError
  else
    match rev cum_weights with
    | [] => raise IndexError
    | total :: _ =>
      if Qle_bool total 0 then raise ValueError
      else
        u <- rng_random ;;
        getitem population (bisect cum_weights (u * total)%Q (n - 1))
    end.

(** [random.shuffle(x)]:
    [for i in reversed(range(1, len(x))): j = randbelow(i + 1); x[i], x[j] = x[j], x[i]] *)
Fixpoint shuffle_from {A : Type} (i : nat) (x : list A) : M Rng (list A) :=
  match i with
  | O => ret x
  | Datatypes.S i' =>
    j <- randbelow (Z.of_nat i + 1) ;;
    xi <- getitem x i ;;
    xj <- getitem x (Z.to_nat j) ;;
    x <- setitem x i xj ;;
    x <- setitem x (Z.to_nat j) xi ;;
    shuffle_from i' x
  end.

Definition shuffle {A : Type} (x : list A) : M Rng (list A) :=
  shuffle_from (List.length x - 1) x.

(** [range(0, n, 2)] *)
Definition range2 (n : Z) : list nat :=
  map (fun k => (2 * k)%nat) (seq 0 (Z.to_nat ((n + 1) / 2))).

(** ** evolutionary_simulation (GenerationalResult.py) *)

Module Engine.
Import Generational.

(** A strategy object seen through the interface of [play_contest]. *)
Definition instance {H : Type} (get : H -> obj) (set : obj -> H -> H)
  : Strategy H :=
  {| reset := fun w => (Ok tt, (set (obj_reset (get (fst w))) (fst w), snd w));
     choose_move := fun my_history opp_history w =>
       let '(m, o, g) :=
         obj_choose_move (get (fst w)) my_history opp_history (snd w) in
       (Ok m, (set o (fst w), g)) |}.

Definition sideA : Strategy (obj * obj) :=
  instance fst (fun o h => (o, snd h)).

Definition sideB : Strategy (obj * obj) :=
  instance snd (fun o h => (fst h, o)).

(** [play_contest(A, B)] on two distinct objects: the scores, and the two
    objects as the contest leaves them. *)
Definition play_pair (A B : obj) : M Rng (Z * Z * (obj * obj)) :=
  fun g =>
    match play_contest (obj * obj) sideA sideB ((A, B), g) with
    | (Ok scores, (h, g')) => (Ok (scores, h), g')
    | (Raise e, (_, g')) => (Raise e, g')
    end.

Definition distribution : Type := list (StrategyClass * Q).

(** [count = int(freq * population_size)] fresh instances per kind: the
    float [freq] times the [int] [population_size] is the product of two
    doubles, rounded, and [int] truncates the rounded product.  (With the
    double nearest to 1/3 and size 6 the exact product is just below 2 and
    the rounded one is 2.) *)
Definition instantiate (population : distribution) (population_size : Z)
  : list obj :=
  flat_map
    (fun sf =>
       repeat (new (fst sf))
              (Z.to_nat
                 (py_int (float_mul (snd sf) (float_of_int population_size)))))
    population.

(** [while len(individuals) < population_size: ...] *)
Fixpoint fill (fuel : nat) (strategies : list StrategyClass)
  (population : distribution) (population_size : Z) (individuals : list obj)
  : M Rng (list obj) :=
  match fuel with
  | O => ret individuals
  | Datatypes.S fuel' =>
    if len individuals <? population_size then
      chosen_strat <- choices strategies (map snd population) ;;
      fill fuel' strategies population population_size
           (individuals ++ [new chosen_strat])
    else ret individuals
  end.

(** [while len(individuals) > population_size: individuals.pop()] *)
Fixpoint trim (fuel : nat) (population_size : Z) (individuals : list obj)
  : M Rng (list obj) :=
  match fuel with
  | O => ret individuals
  | Datatypes.S fuel' =>
    if population_size <? len individuals then
      match individuals with
      | [] => raise IndexError
      | _ :: _ => trim fuel' population_size (removelast individuals)
      end
    else ret individuals
  end.

(** The sampling phase.  Each pass of the first loop appends one
    individual and each pass of the second removes one, so the fuel given
    here is never what stops them. *)
Definition sampling (strategies : list StrategyClass)
  (population : distribution) (population_size : Z) : M Rng (list obj) :=
  let individuals := instantiate population population_size in
  individuals <-
    fill (Z.to_nat (population_size - len individuals))
         strategies population population_size individuals ;;
  trim (Datatypes.S (List.length individuals)) population_size individuals.

(** One pass of [for i in range(0, population_size, 2)]. *)
Definition contest_step (i : nat) (st : list obj * list Z)
  : M Rng (list obj * list Z) :=
  let '(individuals, payoffs) := st in
  A <- getitem individuals i ;;
  B <- getitem individuals (i + 1) ;;
  r <- play_pair A B ;;
  let '(A_score, B_score, (A, B)) := r in
  let individuals := set_nth (set_nth individuals i A) (i + 1) B in
  p <- getitem payoffs i ;;
  payoffs <- setitem payoffs i (p + A_score) ;;
  p <- getitem payoffs (i + 1) ;;
  payoffs <- setitem payoffs (i + 1) (p + B_score) ;;
  ret (individuals, payoffs).

Fixpoint contest_loop (indices : list nat) (st : list obj * list Z)
  : M Rng (list obj * list Z) :=
  match indices with
  | [] => ret st
  | i :: indices' =>
    st <- contest_step i st ;;
    contest_loop indices' st
  end.

(** Shuffle, [payoffs = [0]*population_size], and the pairing loop. *)
Definition contest_phase (population_size : Z) (individuals : list obj)
  : M Rng (list obj * list Z) :=
  individuals <- shuffle individuals ;;
  contest_loop (range2 population_size)
               (individuals, repeat 0 (Z.to_nat population_size)).

(** The dictionaries [strat_payoffs] and [strat_counts], read only at
    keys of [strategies]. *)
Definition dict : Type := StrategyClass -> Z.

Definition dict_add (d : dict) (s : StrategyClass) (v : Z) : dict :=
  fun t => if class_eqb t s then d t + v else d t.

(** [for s in strategies: if isinstance(ind, s): ...; break] *)
Fixpoint credit (strategies : list StrategyClass) (ind : obj) (payoff : Z)
  (d : dict * dict) : dict * dict :=
  match strategies with
  | [] => d
  | s :: rest =>
    if isinstance ind s
    then (dict_add (fst d) s payoff, dict_add (snd d) s 1)
    else credit rest ind payoff d
  end.

Definition aggregate (strategies : list StrategyClass)
  (individuals : list obj) (payoffs : list Z) : dict * dict :=
  fold_left (fun d ip => credit strategies (fst ip) (snd ip) d)
            (combine individuals payoffs)
            (fun _ => 0, fun _ => 0).

(** [fitness = max(avg_pay + 100, 0.01)] *)
Definition fitness (strat_payoff strat_count : Z) : Q :=
  let avg_pay :=
    if 0 <? strat_count
    then (inject_Z strat_payoff / inject_Z strat_count)%Q
    else 0%Q in
  Qmax (avg_pay + 100) (1 # 100).

Definition fitness_table (strategies : list StrategyClass) (d : dict * dict)
  : distribution :=
  map (fun s => (s, fitness (fst d s) (snd d s))) strategies.

Definition total_of (new_population : distribution) : Q :=
  fold_left Qplus (map snd new_population) 0%Q.

(** [population = [(s, f/total_fitness) for s, f in new_population]] *)
Definition normalize (new_population : distribution) : M Rng distribution :=
  let total_fitness := total_of new_population in
  match new_population with
  | [] => ret []
  | _ :: _ =>
    if Qeq_bool total_fitness 0 then raise ZeroDivisionError
    else ret (map (fun sf => (fst sf, (snd sf / total_fitness)%Q))
                  new_population)
  end.

(** [for i, (st, fr) in enumerate(population): if st is Hawk: ...; break] *)
Fixpoint raise_hawk (mutation_amount : Q) (population : distribution)
  : distribution :=
  match population with
  | [] => []
  | (st, fr) :: rest =>
    if class_eqb st cHawk then (st, (fr + mutation_amount)%Q) :: rest
    else (st, fr) :: raise_hawk mutation_amount rest
  end.

(** The mutation step, from the trigger draw on. *)
Definition mutation (population : distribution) : M Rng distribution :=
  u <- rng_random ;;
  if Qltb u MUTATION_RATE then
    mut_index <- randrange (len population) ;;
    sf <- getitem population (Z.to_nat mut_index) ;;
    let '(s, freq) := sf in
    if negb (class_eqb s cHawk) then
      let mutation_amount := Qmin (freq * (1 # 10)) (5 # 100) in
      population <-
        setitem population (Z.to_nat mut_index)
                (s, (freq - mutation_amount)%Q) ;;
      ret (raise_hawk mutation_amount population)
    else ret population
  else ret population.

(** The body of [for gen in range(generations)], printing left out. *)
Definition generation (strategies : list StrategyClass) (population_size : Z)
  (population : distribution) : M Rng distribution :=
  individuals <- sampling strategies population population_size ;;
  r <- contest_phase population_size individuals ;;
  let d := aggregate strategies (fst r) (snd r) in
  population <- normalize (fitness_table strategies d) ;;
  mutation population.

Fixpoint generations_loop (n : nat) (strategies : list StrategyClass)
  (population_size : Z) (population : distribution) : M Rng distribution :=
  match n with
  | O => ret population
  | Datatypes.S n' =>
    population <- generation strategies population_size population ;;
    generations_loop n' strategies population_size population
  end.

Definition evolutionary_simulation (strategies : list StrategyClass)
  (initial_distribution : list Q) (generations population_size : Z)
  : M Rng distribution :=
  generations_loop (Z.to_nat generations) strategies population_size
                   (combine strategies initial_distribution).

End Engine.

(** ** average_payoff (GenerationalResult.py) *)

Module Averager.
Import Generational Engine.

(** [statistics.mean(data)] on integers: the exact quotient; on empty
    data it raises StatisticsError, a subclass of ValueError. *)
Definition mean {S : Type} (data : list Z) : M S Q :=
  match data with
  | [] => raise ValueError
  | _ :: _ =>
    ret (inject_Z (fold_right Z.add 0%Z data) / inject_Z (len data))%Q
  end.

(** [for _ in range(contests): ...] with [n] passes left. *)
Fixpoint contests_loop (n : nat) (strategyA_class strategyB_class : StrategyClass)
  (A_payoffs : list Z) : M Rng (list Z) :=
  match n with
  | O => ret A_payoffs
  | Datatypes.S n' =>
    r <- play_pair (new strategyA_class) (new strategyB_class) ;;
    let '(A_score, B_score, _) := r in
    contests_loop n' strategyA_class strategyB_class (A_payoffs ++ [A_score])
  end.

Definition average_payoff (strategyA_class strategyB_class : StrategyClass)
  (contests : Z) : M Rng Q :=
  A_payoffs <-
    contests_loop (Z.to_nat contests) strategyA_class strategyB_class [] ;;
  mean A_payoffs.

End Averager.

(** ** Concrete configurations on which the results below are exercised *)

(** A generator whose first draws are listed, all later ones being 1/2. *)
Definition rng_of (l : list Q) : Rng := mkRng (fun i => nth i l (1 # 2)) O.

(** A strategy object that answers 'X' whatever it is shown. *)
Definition stubborn : Strategy unit :=
  {| reset := ret tt;
     choose_move := fun _ _ => ret "X"%string |}.

(** A strategy object that answers 'R' whatever it is shown. *)
Definition retreater : Strategy unit :=
  {| reset := ret tt;
     choose_move := fun _ _ => ret "R"%string |}.

(** Scores of an outcome of the loop body, histories left out. *)
Definition scores_of (f : flow) : Z * Z + Z * Z :=
  match f with
  | Return scores => inl scores
  | Next l => inr (A_score l, B_score l)
  end.

Definition outcome_scores {W : Type} (r : res flow * W)
  : res (Z * Z + Z * Z) * W :=
  match r with
  | (Ok f, w) => (Ok (scores_of f), w)
  | (Raise e, w) => (Raise e, w)
  end.

(** The calling discipline of a contest seen from one side: starting
    from the given state, [choose_move] is called once per round on the
    histories so far, after which the side's own move and the opponent's
    move of that round are appended.  [future] lists the opponent's moves
    still to come; the result lists the side's own moves, round by round. *)
Fixpoint trace {T : Type}
  (choose_move : T -> list string -> list string -> string * T)
  (self : T) (my_history opp_history future : list string) : list string :=
  match future with
  | [] => []
  | o :: future' =>
    let '(m, self') := choose_move self my_history opp_history in
    m :: trace choose_move self' (my_history ++ [m]) (opp_history ++ [o]) future'
  end.

(** The same for a strategy that consults the random source. *)
Fixpoint trace_rng {T : Type}
  (choose_move : T -> list string -> list string -> Rng -> string * T * Rng)
  (self : T) (my_history opp_history future : list string) (g : Rng)
  : list string :=
  match future with
  | [] => []
  | o :: future' =>
    let '(m, self', g') := choose_move self my_history opp_history g in
    m :: trace_rng choose_move self' (my_history ++ [m]) (opp_history ++ [o])
           future' g'
  end.

(** The generator after [k] more draws. *)
Definition after_draws (k : nat) (g : Rng) : Rng :=
  mkRng (draws g) (k + pos g).

(** Sum of a list of frequencies. *)
Definition Qsum (l : list Q) : Q := fold_right Qplus 0%Q l.

(** A draw that [random.random()] can return. *)
Definition in_unit (u : Q) : bool := Qle_bool 0 u && Qltb u 1.

(** * Properties of play_contest *)

Section ContestFacts.

Variable H : Type.
Variables strategyA strategyB : Strategy H.

Local Abbreviation play := (play_contest H strategyA strategyB).
Local Abbreviation reaches := (at_round H strategyA strategyB).

Lemma MAX_MOVES_rounds : Z.to_nat MAX_MOVES = 10%nat.
Proof. reflexivity. Qed.

Lemma for_range_return (n : nat) (moves : Z) (l : locals) (w w' : World H)
  (scores : Z * Z) :
  round_body H strategyA strategyB moves l w = (Ok (Return scores), w') ->
  for_range H strategyA strategyB (Datatypes.S n) moves l w = (Ok scores, w').
Proof.
  intros Hbody. cbn [for_range]. unfold bind. rewrite Hbody. reflexivity.
Qed.

Lemma for_range_next (n : nat) (moves : Z) (l l' : locals) (w w' : World H) :
  round_body H strategyA strategyB moves l w = (Ok (Next l'), w') ->
  for_range H strategyA strategyB (Datatypes.S n) moves l w
  = for_range H strategyA strategyB n (moves + 1) l' w'.
Proof.
  intros Hbody. cbn [for_range]. unfold bind. rewrite Hbody. reflexivity.
Qed.

(** A contest that has arrived at round [r] is the remaining rounds run
    from there. *)
Lemma play_contest_at_round (w0 : World H) (r : nat) (l : locals) (w : World H) :
  reaches w0 r l w -> (r <= 10)%nat ->
  play w0 = for_range H strategyA strategyB (10 - r) (Z.of_nat r) l w.
Proof.
  induction 1 as [w1 w2 HA HB | r l w l' w' Hreach IH Hbody]; intros Hr.
  - unfold play_contest, bind. rewrite HA, HB. reflexivity.
  - rewrite IH by lia.
    replace (10 - r)%nat with (Datatypes.S (10 - Datatypes.S r)) by lia.
    rewrite (for_range_next _ _ _ _ _ _ Hbody).
    f_equal. lia.
Qed.

(** The round in which the loop body returns decides the contest. *)
Lemma play_contest_decided (w0 : World H) (r : nat) (l : locals)
  (w w' : World H) (scores : Z * Z) :
  reaches w0 r l w -> (r < 10)%nat ->
  round_body H strategyA strategyB (Z.of_nat r) l w = (Ok (Return scores), w') ->
  play w0 = (Ok scores, w').
Proof.
  intros Hreach Hr Hbody.
  rewrite (play_contest_at_round _ _ _ _ Hreach) by lia.
  replace (10 - r)%nat with (Datatypes.S (10 - Datatypes.S r)) by lia.
  now apply for_range_return.
Qed.

Lemma round_body_moves (moves : Z) (l : locals) (w w1 w2 : World H)
  (A_move B_move : string) :
  choose_move strategyA (A_history l) (B_history l) w = (Ok A_move, w1) ->
  choose_move strategyB (B_history l) (A_history l) w1 = (Ok B_move, w2) ->
  round_body H strategyA strategyB moves l w = resolve H moves l A_move B_move w2.
Proof.
  intros HA HB. unfold round_body, bind. rewrite HA, HB. reflexivity.
Qed.

Lemma max_bonus (moves : Z) : Z.max (time_bonus moves) 0
  = Z.max 0 (TIME_BONUS_START - TIME_BONUS_DECREMENT * moves).
Proof. unfold time_bonus. apply Z.max_comm. Qed.

(** C1: in round r (0-indexed), when exactly one side plays Retreat the
    contest ends in that round, with no further call or draw; the side that
    did not retreat ends with its accumulated score plus WIN_PAYOFF plus
    max(0, TIME_BONUS_START - TIME_BONUS_DECREMENT * r), the retreating side
    with its accumulated score unchanged, and the bonus is never negative. *)
Theorem solitary_retreat_payoff (w0 : World H) (r : nat) (l : locals)
  (w w1 w2 : World H) (A_move B_move : string) :
  reaches w0 r l w -> (r < Z.to_nat MAX_MOVES)%nat ->
  choose_move strategyA (A_history l) (B_history l) w = (Ok A_move, w1) ->
  choose_move strategyB (B_history l) (A_history l) w1 = (Ok B_move, w2) ->
  let bonus := Z.max 0 (TIME_BONUS_START - TIME_BONUS_DECREMENT * Z.of_nat r) in
  0 <= bonus /\
  (A_move = "R"%string -> B_move <> "R"%string ->
   play w0 = (Ok (A_score l, B_score l + WIN_PAYOFF + bonus), w2)) /\
  (B_move = "R"%string -> A_move <> "R"%string ->
   play w0 = (Ok (A_score l + WIN_PAYOFF + bonus, B_score l), w2)).
Proof.
  intros Hreach Hr HA HB bonus. rewrite MAX_MOVES_rounds in Hr.
  split; [apply Z.le_max_l|].
  split; intros Hret Hstay; subst;
    apply (play_contest_decided _ _ _ _ _ _ Hreach Hr);
    rewrite (round_body_moves _ _ _ _ _ _ _ HA HB);
    unfold resolve; apply String.eqb_neq in Hstay; rewrite Hstay;
    cbn [String.eqb Ascii.eqb Bool.eqb andb]; rewrite max_bonus; reflexivity.
Qed.

Lemma world_random_draw (w : World H) :
  world_random H w
  = (Ok (draws (snd w) (pos (snd w))),
     (fst w, mkRng (draws (snd w)) (1 + pos (snd w)))).
Proof. reflexivity. Qed.

Ltac contest_round Hreach Hr HA HB :=
  apply (play_contest_decided _ _ _ _ _ _ Hreach Hr);
  rewrite (round_body_moves _ _ _ _ _ _ _ HA HB).

Ltac not_move Hm := apply String.eqb_neq in Hm; rewrite ?Hm.

(** C2 (amended): with neither side retreating in round r, a successful
    injury roll ends the contest at once.  The injured side ends with its
    score at entry to the round plus SERIOUS_INJURY, once.  The acting side
    ends with its score at entry plus WIN_PAYOFF plus the time bonus; when
    the acting side is B and A also played a Dangerous-act in that round
    (its roll, drawn first, failed), B's score carries the SCRATCH of that
    failed roll as well. *)
Theorem injury_ends_contest (w0 : World H) (r : nat) (l : locals)
  (w w1 w2 : World H) (A_move B_move : string) :
  reaches w0 r l w -> (r < Z.to_nat MAX_MOVES)%nat ->
  choose_move strategyA (A_history l) (B_history l) w = (Ok A_move, w1) ->
  choose_move strategyB (B_history l) (A_history l) w1 = (Ok B_move, w2) ->
  A_move <> "R"%string -> B_move <> "R"%string ->
  let bonus := Z.max 0 (TIME_BONUS_START - TIME_BONUS_DECREMENT * Z.of_nat r) in
  let g := snd w2 in
  let u1 := draws g (pos g) in
  let u2 := draws g (1 + pos g) in
  let after k := (fst w2, mkRng (draws g) (k + pos g)) in
  (A_move = "D"%string -> Qltb u1 P_INJURY = true ->
   play w0 = (Ok (A_score l + WIN_PAYOFF + bonus, B_score l + SERIOUS_INJURY),
              after 1%nat)) /\
  (A_move <> "D"%string -> B_move = "D"%string -> Qltb u1 P_INJURY = true ->
   play w0 = (Ok (A_score l + SERIOUS_INJURY, B_score l + WIN_PAYOFF + bonus),
              after 1%nat)) /\
  (A_move = "D"%string -> B_move = "D"%string ->
   Qltb u1 P_INJURY = false -> Qltb u2 P_INJURY = true ->
   play w0 = (Ok (A_score l + SERIOUS_INJURY,
                  B_score l + SCRATCH + WIN_PAYOFF + bonus),
              after 2%nat)).
Proof.
  intros Hreach Hr HA HB HAR HBR bonus g u1 u2 after.
  rewrite MAX_MOVES_rounds in Hr.
  repeat split.
  - intros -> Hu1. contest_round Hreach Hr HA HB.
    unfold resolve. not_move HBR. cbn [String.eqb Ascii.eqb Bool.eqb andb].
    unfold dangerous_A, bind. cbn [String.eqb Ascii.eqb Bool.eqb].
    rewrite world_random_draw. fold g u1. rewrite Hu1, max_bonus. reflexivity.
  - intros HAD -> Hu1. contest_round Hreach Hr HA HB.
    unfold resolve. not_move HAR. not_move HAD.
    cbn [String.eqb Ascii.eqb Bool.eqb andb].
    unfold dangerous_A, dangerous_B, bind. rewrite HAD.
    cbn [String.eqb Ascii.eqb Bool.eqb ret].
    rewrite world_random_draw. fold g u1. rewrite Hu1, max_bonus. reflexivity.
  - intros -> -> Hu1 Hu2. contest_round Hreach Hr HA HB.
    unfold resolve. cbn [String.eqb Ascii.eqb Bool.eqb andb].
    unfold dangerous_A, dangerous_B, bind. cbn [String.eqb Ascii.eqb Bool.eqb].
    rewrite world_random_draw. fold g u1. rewrite Hu1. cbn [ret].
    rewrite world_random_draw. cbn [fst snd draws pos]. fold g u2.
    rewrite Hu2, max_bonus. reflexivity.
Qed.

(** C3: when both sides play Dangerous-act in the same round, A's roll
    against B is the first draw after the two moves and B's roll against A,
    if drawn at all, the one after it; when A's roll injures B the contest
    returns with that single draw consumed, so B's roll is never drawn. *)
Theorem A_roll_before_B_roll (w0 : World H) (r : nat) (l : locals)
  (w w1 w2 : World H) :
  reaches w0 r l w -> (r < Z.to_nat MAX_MOVES)%nat ->
  choose_move strategyA (A_history l) (B_history l) w = (Ok "D"%string, w1) ->
  choose_move strategyB (B_history l) (A_history l) w1 = (Ok "D"%string, w2) ->
  let bonus := Z.max 0 (TIME_BONUS_START - TIME_BONUS_DECREMENT * Z.of_nat r) in
  let g := snd w2 in
  let A_roll := draws g (pos g) in
  let B_roll := draws g (1 + pos g) in
  let after k := (fst w2, mkRng (draws g) (k + pos g)) in
  (Qltb A_roll P_INJURY = true ->
   play w0 = (Ok (A_score l + WIN_PAYOFF + bonus, B_score l + SERIOUS_INJURY),
              after 1%nat)) /\
  (Qltb A_roll P_INJURY = false ->
   round_body H strategyA strategyB (Z.of_nat r) l w
   = if Qltb B_roll P_INJURY
     then (Ok (Return (A_score l + SERIOUS_INJURY,
                       B_score l + SCRATCH + WIN_PAYOFF + bonus)),
           after 2%nat)
     else (Ok (Next (mkLocals (A_history l ++ ["D"%string])
                              (B_history l ++ ["D"%string])
                              (A_score l + SCRATCH) (B_score l + SCRATCH))),
           after 2%nat)).
Proof.
  intros Hreach Hr HA HB bonus g A_roll B_roll after.
  rewrite MAX_MOVES_rounds in Hr.
  split; intros Hroll.
  - contest_round Hreach Hr HA HB.
    unfold resolve. cbn [String.eqb Ascii.eqb Bool.eqb andb].
    unfold dangerous_A, bind. cbn [String.eqb Ascii.eqb Bool.eqb].
    rewrite world_random_draw. fold g A_roll. rewrite Hroll, max_bonus.
    reflexivity.
  - rewrite (round_body_moves _ _ _ _ _ _ _ HA HB).
    unfold resolve. cbn [String.eqb Ascii.eqb Bool.eqb andb].
    unfold dangerous_A, dangerous_B, bind. cbn [String.eqb Ascii.eqb Bool.eqb].
    rewrite world_random_draw. fold g A_roll. rewrite Hroll. cbn [ret].
    rewrite world_random_draw. cbn [fst snd draws pos]. fold g B_roll.
    destruct (Qltb B_roll P_INJURY); rewrite ?max_bonus; reflexivity.
Qed.

(** The part of the loop body written in [play_contest] itself never
    raises. *)
Lemma resolve_total (moves : Z) (l : locals) (A_move B_move : string)
  (w : World H) :
  exists f w', resolve H moves l A_move B_move w = (Ok f, w').
Proof.
  unfold resolve, dangerous_A, dangerous_B, bind.
  destruct (String.eqb A_move "R"), (String.eqb B_move "R"),
    (String.eqb A_move "D"), (String.eqb B_move "D");
    cbn [andb ret]; rewrite ?world_random_draw;
    try destruct (Qltb _ P_INJURY); cbn [ret];
    rewrite ?world_random_draw;
    try destruct (Qltb _ P_INJURY); cbn [ret];
    unfold ret; eauto.
Qed.

Lemma for_range_total (n : nat) :
  never_raises H strategyA -> never_raises H strategyB ->
  forall moves l w,
  exists scores w',
    for_range H strategyA strategyB n moves l w = (Ok scores, w').
Proof.
  intros [_ HA] [_ HB].
  induction n as [|n IH]; intros moves l w; cbn [for_range].
  - unfold ret. eauto.
  - unfold bind, round_body, bind.
    destruct (HA (A_history l) (B_history l) w) as (a & w1 & ->).
    destruct (HB (B_history l) (A_history l) w1) as (b & w2 & ->).
    destruct (resolve_total moves l a b w2) as ([scores | l'] & w3 & ->).
    + unfold ret. eauto.
    + apply IH.
Qed.

Lemma play_contest_total :
  never_raises H strategyA -> never_raises H strategyB ->
  forall w0, exists scores w', play w0 = (Ok scores, w').
Proof.
  intros HA HB w0. unfold play_contest, bind.
  destruct (proj1 HA w0) as (w1 & ->). destruct (proj1 HB w1) as (w2 & ->).
  now apply for_range_total.
Qed.

(** C4 (amended): a move outside {'C','D','R'} does not make the contest
    raise.  On either side it is scored exactly as Cooperate would be (no
    retreat, no injury roll, no scratch), it is appended to the history as
    returned, and the contest goes on; a contest between strategies that do
    not raise themselves returns a score pair whatever moves they return. *)
Theorem illegal_move_plays_as_cooperate (moves : Z) (l : locals)
  (m other : string) (w : World H) :
  m <> "R"%string -> m <> "D"%string ->
  outcome_scores (resolve H moves l m other w)
  = outcome_scores (resolve H moves l "C" other w) /\
  outcome_scores (resolve H moves l other m w)
  = outcome_scores (resolve H moves l other "C" w) /\
  (forall l' w', resolve H moves l m other w = (Ok (Next l'), w') ->
                 A_history l' = A_history l ++ [m]) /\
  (forall l' w', resolve H moves l other m w = (Ok (Next l'), w') ->
                 B_history l' = B_history l ++ [m]) /\
  (never_raises H strategyA -> never_raises H strategyB ->
   forall w0, exists scores w', play w0 = (Ok scores, w')).
Proof.
  intros HR HD. not_move HR. not_move HD.
  unfold resolve, dangerous_A, dangerous_B, bind. rewrite HR, HD.
  cbn [String.eqb Ascii.eqb Bool.eqb andb].
  repeat split.
  - destruct (String.eqb other "R"), (String.eqb other "D");
      cbn [andb ret outcome_scores scores_of]; rewrite ?world_random_draw;
      try destruct (Qltb _ P_INJURY); reflexivity.
  - destruct (String.eqb other "R"), (String.eqb other "D");
      cbn [andb ret outcome_scores scores_of]; rewrite ?world_random_draw;
      try destruct (Qltb _ P_INJURY); cbn [ret];
      rewrite ?Bool.andb_false_r; reflexivity.
  - intros l' w'.
    destruct (String.eqb other "R"), (String.eqb other "D");
      cbn [andb ret]; rewrite ?world_random_draw;
      try destruct (Qltb _ P_INJURY); cbn [ret];
      intros E; inversion E; reflexivity.
  - intros l' w'.
    destruct (String.eqb other "R"), (String.eqb other "D");
      cbn [andb ret]; rewrite ?world_random_draw;
      try destruct (Qltb _ P_INJURY); cbn [ret];
      rewrite ?world_random_draw; try destruct (Qltb _ P_INJURY); cbn [ret];
      intros E; inversion E; reflexivity.
  - intros HA HB w0. now apply play_contest_total.
Qed.

End ContestFacts.

(** ** The contest results on concrete contests *)

Import Generational Engine.

(** Mouse against Hawk, Hawk's first roll failing: in round 1 Mouse alone
    retreats with scores (-2, 0), and Hawk collects 60 + max(0, 20 - 2). *)
Lemma solitary_retreat_payoff_witness :
  fst (play_contest (obj * obj) sideA sideB
         ((new cMouse, new cHawk), rng_of []))
  = Ok (-2, 78).
Proof.
  edestruct (solitary_retreat_payoff (obj * obj) sideA sideB
               ((new cMouse, new cHawk), rng_of []) 1)
    as (_ & Hretreat & _).
  - eapply at_next.
    + eapply at_start; reflexivity.
    + reflexivity.
  - vm_compute. lia.
  - reflexivity.
  - reflexivity.
  - rewrite Hretreat; [reflexivity | reflexivity | discriminate].
Defined.

(** Hawk against Hawk with A's roll failing (1/2) and B's succeeding (0). *)
Lemma injury_ends_contest_witness :
  fst (play_contest (obj * obj) sideA sideB
         ((new cHawk, new cHawk), rng_of [1 # 2; 0%Q]))
  = Ok (-100, 78).
Proof.
  edestruct (injury_ends_contest (obj * obj) sideA sideB
               ((new cHawk, new cHawk), rng_of [1 # 2; 0%Q]) 0)
    as (_ & _ & Hboth).
  - eapply at_start; reflexivity.
  - vm_compute. lia.
  - reflexivity.
  - reflexivity.
  - discriminate.
  - discriminate.
  - rewrite Hboth; reflexivity.
Defined.

(** C2 as stated fails: Hawk against Hawk enters round 0 with scores
    (0, 0) and both play 'D'; A's roll (1/2) fails and scratches B, B's roll
    (0) injures A.  The acting side B ends with 78 = 0 - 2 + 60 + 20, not
    with its score at entry plus WIN_PAYOFF plus the bonus, which is 80. *)
Lemma injury_claim_counterexample :
  let w0 := ((new cHawk, new cHawk), rng_of [1 # 2; 0%Q]) in
  at_round (obj * obj) sideA sideB w0 0 (mkLocals [] [] 0 0) w0 /\
  choose_move sideA [] [] w0 = (Ok "D"%string, w0) /\
  choose_move sideB [] [] w0 = (Ok "D"%string, w0) /\
  Qltb (draws (snd w0) 0) P_INJURY = false /\
  Qltb (draws (snd w0) 1) P_INJURY = true /\
  fst (play_contest (obj * obj) sideA sideB w0) = Ok (-100, 78) /\
  78 <> 0 + WIN_PAYOFF
        + Z.max 0 (TIME_BONUS_START - TIME_BONUS_DECREMENT * Z.of_nat 0).
Proof.
  cbv zeta. repeat split; try reflexivity.
  - eapply at_start; reflexivity.
  - vm_compute. discriminate.
Qed.

(** Hawk against Hawk with both rolls at 0: A's roll injures B and the
    contest returns with one draw consumed. *)
Lemma A_roll_before_B_roll_witness :
  play_contest (obj * obj) sideA sideB
    ((new cHawk, new cHawk), rng_of [0%Q; 0%Q])
  = (Ok (80, -100),
     ((new cHawk, new cHawk), mkRng (draws (rng_of [0%Q; 0%Q])) 1)).
Proof.
  edestruct (A_roll_before_B_roll (obj * obj) sideA sideB
               ((new cHawk, new cHawk), rng_of [0%Q; 0%Q]) 0)
    as (Hfirst & _).
  - eapply at_start; reflexivity.
  - vm_compute. lia.
  - reflexivity.
  - reflexivity.
  - rewrite Hfirst; reflexivity.
Defined.

Lemma illegal_move_plays_as_cooperate_witness :
  outcome_scores
    (resolve unit 0 (mkLocals [] [] 0 0) "X" "X" (tt, rng_of []))
  = outcome_scores
      (resolve unit 0 (mkLocals [] [] 0 0) "C" "X" (tt, rng_of [])).
Proof.
  apply (illegal_move_plays_as_cooperate unit stubborn stubborn 0
           (mkLocals [] [] 0 0) "X" "X" (tt, rng_of [])); discriminate.
Defined.

(** C4 as stated fails: both sides answer 'X', which is none of 'C', 'D',
    'R', in every round, and the contest returns (0, 0) without raising. *)
Lemma illegal_move_counterexample :
  choose_move stubborn [] [] (tt, rng_of [])
  = (Ok "X"%string, (tt, rng_of [])) /\
  "X"%string <> "C"%string /\ "X"%string <> "D"%string /\
  "X"%string <> "R"%string /\
  play_contest unit stubborn stubborn (tt, rng_of [])
  = (Ok (0, 0), (tt, rng_of [])).
Proof.
  repeat split; try reflexivity; discriminate.
Qed.

(** * Properties of the strategies *)

Lemma last_is_snoc (m x : string) (h : list string) :
  last_is m (h ++ [x]) = String.eqb x m.
Proof. unfold last_is. rewrite rev_app_distr. reflexivity. Qed.

Lemma py_in_snoc (m x : string) (h : list string) :
  py_in m (h ++ [x]) = py_in m h || String.eqb m x.
Proof.
  unfold py_in. rewrite existsb_app. cbn [existsb].
  now rewrite Bool.orb_false_r.
Qed.

(** What the two Mouse flags have in common before a call on opponent
    history [h]: the flag of OriginalSimulation.py lags by at most the last
    move of [h], the flag of GenerationalResult.py is set only if 'D'
    occurs in [h]. *)
Lemma mouse_traces_agree (future my h : list string) (fo fg : bool) :
  py_in "D" h = fo || last_is "D" h ->
  (fg = true -> py_in "D" h = true) ->
  trace Original.Mouse.choose_move (Original.Mouse.mk fo) my h future
  = trace Generational.Mouse.choose_move (Generational.Mouse.mk fg) my h future.
Proof.
  revert my h fo fg.
  induction future as [|o future IH]; intros my h fo fg Hlag Hset; [reflexivity|].
  cbn [trace].
  unfold Original.Mouse.choose_move, Generational.Mouse.choose_move.
  assert (Hfo : Original.Mouse.opponent_d_played
                  (if last_is "D" h then Original.Mouse.mk true
                   else Original.Mouse.mk fo) = py_in "D" h).
  { rewrite Hlag. destruct (last_is "D" h), fo; reflexivity. }
  assert (Hfg : Generational.Mouse.opponent_d_played
                  (if py_in "D" h then Generational.Mouse.mk true
                   else Generational.Mouse.mk fg) = py_in "D" h).
  { destruct (py_in "D" h) eqn:E; cbn; [reflexivity|].
    destruct fg; [specialize (Hset eq_refl); congruence | reflexivity]. }
  assert (Hnext :
    trace Original.Mouse.choose_move
      (if last_is "D" h then Original.Mouse.mk true else Original.Mouse.mk fo)
      (my ++ [if py_in "D" h then "R"%string
              else if len my <? MAX_MOVES then "C"%string else "R"%string])
      (h ++ [o]) future
    = trace Generational.Mouse.choose_move
        (if py_in "D" h then Generational.Mouse.mk true
         else Generational.Mouse.mk fg)
        (my ++ [if py_in "D" h then "R"%string
                else if len my <? MAX_MOVES then "C"%string else "R"%string])
        (h ++ [o]) future).
  { destruct (if last_is "D" h then Original.Mouse.mk true
              else Original.Mouse.mk fo) as [fo'] eqn:Eo.
    destruct (if py_in "D" h then Generational.Mouse.mk true
              else Generational.Mouse.mk fg) as [fg'] eqn:Eg.
    cbn in Hfo, Hfg. subst fo' fg'.
    apply IH.
    - rewrite py_in_snoc, last_is_snoc, String.eqb_sym. reflexivity.
    - intros Hd. rewrite py_in_snoc, Hd. reflexivity. }
  rewrite Hfo, Hfg.
  destruct (py_in "D" h) eqn:E.
  - rewrite Bool.andb_false_r. f_equal. exact Hnext.
  - rewrite Bool.andb_true_r.
    destruct (len my <? MAX_MOVES); f_equal; exact Hnext.
Qed.

(** C10: from [reset], called once per round on histories that grow by
    one move per side per round, the Mouse of OriginalSimulation.py (flag
    set when the opponent's most recent move is 'D') and the Mouse of
    GenerationalResult.py (flag set when 'D' occurs anywhere in the
    opponent's history) return the same move in every round, whatever the
    opponent plays. *)
Theorem mouse_versions_agree (opp : list string) (o : Original.Mouse.t)
  (g : Generational.Mouse.t) :
  trace Original.Mouse.choose_move (Original.Mouse.reset o) [] [] opp
  = trace Generational.Mouse.choose_move (Generational.Mouse.reset g) [] [] opp.
Proof.
  apply mouse_traces_agree; [reflexivity | discriminate].
Qed.

Lemma last_is_py_in (m : string) (h : list string) :
  last_is m h = true -> py_in m h = true.
Proof.
  destruct h as [|x h] using rev_ind; [discriminate|].
  rewrite last_is_snoc, py_in_snoc, String.eqb_sym.
  intros ->. apply Bool.orb_true_r.
Qed.

(** GenerationalResult.py: once [has_probed] is set, a call within the
    round cap answers the opponent's most recent move alone. *)
Lemma gen_prober_step (mc : Z) (my h : list string) (g : Rng) :
  mc + 1 <= MAX_MOVES ->
  Generational.ProberRetaliator.choose_move
    (Generational.ProberRetaliator.mk mc true) my h g
  = (if last_is "D" h then "C"%string else "D"%string,
     Generational.ProberRetaliator.mk (mc + 1) true, g).
Proof.
  intros Hcap. unfold Generational.ProberRetaliator.choose_move.
  cbn [Generational.ProberRetaliator.move_count
       Generational.ProberRetaliator.has_probed negb andb].
  destruct (Z.ltb_spec MAX_MOVES (mc + 1)) as [Hover|_]; [lia|].
  reflexivity.
Qed.

Lemma gen_prober_probed (k : nat) :
  forall (future my h : list string) (mc : Z) (g : Rng),
  mc + Z.of_nat k + 1 <= MAX_MOVES -> (k < List.length future)%nat ->
  nth_error
    (trace_rng Generational.ProberRetaliator.choose_move
       (Generational.ProberRetaliator.mk mc true) my h future g) k
  = Some (if last_is "D" (h ++ firstn k future)
          then "C"%string else "D"%string).
Proof.
  induction k as [|k IH]; intros [|o future] my h mc g Hcap Hlen;
    cbn [List.length] in Hlen; try lia;
    cbn [trace_rng]; rewrite gen_prober_step by lia;
    cbn [nth_error firstn].
  - rewrite app_nil_r. reflexivity.
  - rewrite IH by lia. rewrite <- app_assoc. reflexivity.
Qed.

(** OriginalSimulation.py: once [has_probed] is set, [state] is 'D' until
    the first call that sees an opponent 'D', and 'C' from then on. *)
Lemma orig_prober_step (conceded : bool) (mc : Z) (my h : list string)
  (x : string) (g : Rng) :
  mc + 1 <= MAX_MOVES ->
  let m := if conceded || String.eqb x "D" then "C"%string else "D"%string in
  Original.ProberRetaliator.choose_move
    (Original.ProberRetaliator.mk
       (if conceded then "C"%string else "D"%string) mc true)
    my (h ++ [x]) g
  = (m, Original.ProberRetaliator.mk m (mc + 1) true, g).
Proof.
  intros Hcap m. unfold Original.ProberRetaliator.choose_move.
  cbn [Original.ProberRetaliator.move_count
       Original.ProberRetaliator.has_probed
       Original.ProberRetaliator.state negb andb].
  destruct (Z.ltb_spec MAX_MOVES (mc + 1)) as [Hover|_]; [lia|].
  unfold Original.ProberRetaliator.observe.
  destruct (h ++ [x]) as [|y t] eqn:Eh; [now destruct h|].
  rewrite <- Eh, last_is_snoc.
  cbn [Original.ProberRetaliator.move_count
       Original.ProberRetaliator.has_probed
       Original.ProberRetaliator.state negb andb].
  subst m. destruct (String.eqb x "D"), conceded; reflexivity.
Qed.

Lemma orig_prober_probed (k : nat) :
  forall (future my h : list string) (x : string) (conceded : bool)
         (mc : Z) (g : Rng),
  mc + Z.of_nat k + 1 <= MAX_MOVES -> (k < List.length future)%nat ->
  nth_error
    (trace_rng Original.ProberRetaliator.choose_move
       (Original.ProberRetaliator.mk
          (if conceded then "C"%string else "D"%string) mc true)
       my (h ++ [x]) future g) k
  = Some (if conceded || py_in "D" (x :: firstn k future)
          then "C"%string else "D"%string).
Proof.
  induction k as [|k IH]; intros [|o future] my h x conceded mc g Hcap Hlen;
    cbn [List.length] in Hlen; try lia;
    cbn [trace_rng]; rewrite orig_prober_step by lia;
    cbn [nth_error firstn py_in existsb];
    rewrite (String.eqb_sym "D" x).
  - rewrite Bool.orb_false_r. reflexivity.
  - specialize (IH future
                   (my ++ [if conceded || String.eqb x "D"
                           then "C"%string else "D"%string])
                   (h ++ [x]) o (conceded || String.eqb x "D") (mc + 1) g).
    fold (py_in "D" (firstn k future)). rewrite Bool.orb_assoc.
    destruct (conceded || String.eqb x "D") eqn:E;
      rewrite IH by lia; reflexivity.
Qed.

Lemma gen_prober_probe (self : Generational.ProberRetaliator.t) (g : Rng) :
  Qltb (draws g (pos g)) PROBE_PROB = true ->
  Generational.ProberRetaliator.choose_move
    (Generational.ProberRetaliator.reset self) [] [] g
  = ("D"%string, Generational.ProberRetaliator.mk 1 true,
     mkRng (draws g) (Datatypes.S (pos g))).
Proof.
  intros Hu. unfold Generational.ProberRetaliator.choose_move, next_draw.
  cbn [Generational.ProberRetaliator.reset
       Generational.ProberRetaliator.move_count
       Generational.ProberRetaliator.has_probed].
  change (MAX_MOVES <? 0 + 1) with false.
  change (negb false && (len (@nil string) =? 0)) with true.
  cbv iota. rewrite Hu. reflexivity.
Qed.

Lemma orig_prober_probe (self : Original.ProberRetaliator.t) (g : Rng) :
  Qltb (draws g (pos g)) PROBE_PROB = true ->
  Original.ProberRetaliator.choose_move
    (Original.ProberRetaliator.reset self) [] [] g
  = ("D"%string, Original.ProberRetaliator.mk "D" 1 true,
     mkRng (draws g) (Datatypes.S (pos g))).
Proof.
  intros Hu. unfold Original.ProberRetaliator.choose_move, next_draw.
  cbn [Original.ProberRetaliator.reset
       Original.ProberRetaliator.move_count
       Original.ProberRetaliator.has_probed
       Original.ProberRetaliator.state].
  change (MAX_MOVES <? 0 + 1) with false.
  change (negb false && (len (@nil string) =? 0)) with true.
  cbv iota. rewrite Hu. reflexivity.
Qed.

(** C8 (amended): when the first draw makes the Prober-Retaliator probe,
    it opens with 'D' in both files.  In every later round k within the
    round cap, the GenerationalResult.py version plays 'C' when the
    opponent's most recent move was 'D' and 'D' when it was not.  The
    OriginalSimulation.py version also plays 'C' whenever the opponent's
    most recent move was 'D', but plays 'D' only as long as the opponent has
    played no 'D' at all so far: after its first concession it plays 'C'. *)
Theorem prober_after_probe (opp : list string) (g : Rng) (k : nat)
  (so : Original.ProberRetaliator.t) (sg : Generational.ProberRetaliator.t) :
  Qltb (draws g (pos g)) PROBE_PROB = true ->
  (1 <= k)%nat -> Z.of_nat k < MAX_MOVES -> (k < List.length opp)%nat ->
  let gen := trace_rng Generational.ProberRetaliator.choose_move
               (Generational.ProberRetaliator.reset sg) [] [] opp g in
  let orig := trace_rng Original.ProberRetaliator.choose_move
                (Original.ProberRetaliator.reset so) [] [] opp g in
  nth_error gen 0 = Some "D"%string /\
  nth_error orig 0 = Some "D"%string /\
  nth_error gen k
  = Some (if last_is "D" (firstn k opp) then "C"%string else "D"%string) /\
  nth_error orig k
  = Some (if py_in "D" (firstn k opp) then "C"%string else "D"%string) /\
  (last_is "D" (firstn k opp) = true -> nth_error orig k = Some "C"%string).
Proof.
  intros Hu Hk Hcap Hlen gen orig. subst gen orig.
  destruct opp as [|o0 future]; cbn [List.length] in Hlen; [lia|].
  destruct k as [|k]; [lia|].
  cbn [trace_rng]. rewrite (gen_prober_probe sg g Hu), (orig_prober_probe so g Hu).
  cbn [nth_error app].
  assert (Horig :
    nth_error
      (trace_rng Original.ProberRetaliator.choose_move
         (Original.ProberRetaliator.mk "D" 1 true) ["D"%string] [o0] future
         (mkRng (draws g) (Datatypes.S (pos g)))) k
    = Some (if py_in "D" (firstn (Datatypes.S k) (o0 :: future))
            then "C"%string else "D"%string)).
  { apply (orig_prober_probed k future ["D"%string] [] o0 false 1); lia. }
  repeat split; try assumption.
  - rewrite gen_prober_probed by lia. reflexivity.
  - intros Hlast. rewrite Horig, (last_is_py_in _ _ Hlast). reflexivity.
Qed.

(** Probing (first draw 0) against an opponent that plays 'D', 'C', 'C':
    the round-2 answers of the two versions. *)
Lemma prober_after_probe_witness :
  nth_error
    (trace_rng Generational.ProberRetaliator.choose_move
       (Generational.ProberRetaliator.reset
          (Generational.ProberRetaliator.mk 0 false))
       [] [] ["D"; "C"; "C"]%string (rng_of [0%Q])) 2
  = Some "D"%string /\
  nth_error
    (trace_rng Original.ProberRetaliator.choose_move
       (Original.ProberRetaliator.reset
          (Original.ProberRetaliator.mk "C" 0 false))
       [] [] ["D"; "C"; "C"]%string (rng_of [0%Q])) 2
  = Some "C"%string.
Proof.
  destruct (prober_after_probe ["D"; "C"; "C"]%string (rng_of [0%Q]) 2
              (Original.ProberRetaliator.mk "C" 0 false)
              (Generational.ProberRetaliator.mk 0 false))
    as (_ & _ & Hgen & Horig & _).
  - reflexivity.
  - lia.
  - reflexivity.
  - cbn. lia.
  - split; [exact Hgen | exact Horig].
Defined.

(** C8 as stated fails for OriginalSimulation.py: the Prober-Retaliator
    probes (round 0), concedes in round 1 after the opponent's 'D', and in
    round 2, within the round cap and with the opponent's most recent move
    'C', it plays 'C' and not 'D'. *)
Lemma prober_claim_counterexample :
  let opp := ["D"; "C"; "C"]%string in
  let played :=
    trace_rng Original.ProberRetaliator.choose_move
      (Original.ProberRetaliator.reset
         (Original.ProberRetaliator.mk "C" 0 false))
      [] [] opp (rng_of [0%Q]) in
  played = ["D"; "C"; "C"]%string /\
  last_is "D" (firstn 2 opp) = false /\
  2 < MAX_MOVES /\
  nth_error played 2 <> Some "D"%string.
Proof.
  cbv zeta. repeat split; try reflexivity. discriminate.
Qed.

(** * Properties of the evolutionary engine *)

Lemma valid_after_draws (k : nat) (g : Rng) :
  valid_rng g -> valid_rng (after_draws k g).
Proof. intros Hg i. apply Hg. Qed.

Lemma rng_random_draw (g : Rng) :
  rng_random g = (Ok (draws g (pos g)), after_draws 1 g).
Proof. reflexivity. Qed.

Lemma after_draws_0 (g : Rng) : after_draws 0 g = g.
Proof. destruct g. reflexivity. Qed.

Lemma after_draws_add (j k : nat) (g : Rng) :
  after_draws j (after_draws k g) = after_draws (j + k) g.
Proof. unfold after_draws. cbn [draws pos]. f_equal. lia. Qed.

(** A draw scaled to [0, n) lands on an index below [n]. *)
Lemma scaled_draw_range (u : Q) (n : Z) :
  (0 <= u)%Q -> (u < 1)%Q -> 0 < n ->
  0 <= Qfloor (u * inject_Z n) < n.
Proof.
  intros H0 H1 Hn.
  assert (Hn' : (0 < inject_Z n)%Q) by (rewrite Zlt_Qlt in Hn; exact Hn).
  split.
  - change 0 with (Qfloor 0). apply Qfloor_resp_le.
    apply Qmult_le_0_compat; [exact H0 | apply Qlt_le_weak, Hn'].
  - rewrite Zlt_Qlt.
    apply Qle_lt_trans with (u * inject_Z n)%Q; [apply Qfloor_le|].
    setoid_replace (inject_Z n) with (1 * inject_Z n)%Q at 2 by ring.
    apply Qmult_lt_compat_r; assumption.
Qed.

Lemma randbelow_range (n : Z) (g : Rng) :
  valid_rng g -> 0 < n ->
  exists j, randbelow n g = (Ok j, after_draws 1 g) /\ 0 <= j < n.
Proof.
  intros Hg Hn. unfold randbelow, bind. rewrite rng_random_draw.
  eexists. split; [reflexivity|].
  destruct (Hg (pos g)). now apply scaled_draw_range.
Qed.

Lemma getitem_ok {S A : Type} (l : list A) (i : nat) (s : S) :
  (i < List.length l)%nat -> exists x, nth_error l i = Some x /\ getitem l i s = (Ok x, s).
Proof.
  intros Hi. unfold getitem.
  destruct (nth_error l i) as [x|] eqn:E.
  - eauto.
  - apply nth_error_None in E. lia.
Qed.

Lemma getitem_out {S A : Type} (l : list A) (i : nat) (s : S) :
  (List.length l <= i)%nat -> getitem l i s = (Raise IndexError, s).
Proof.
  intros Hi. unfold getitem. apply nth_error_None in Hi. now rewrite Hi.
Qed.

Lemma setitem_ok {S A : Type} (l : list A) (i : nat) (v : A) (s : S) :
  (i < List.length l)%nat -> setitem l i v s = (Ok (set_nth l i v), s).
Proof.
  intros Hi. unfold setitem. apply Nat.ltb_lt in Hi. now rewrite Hi.
Qed.

Lemma length_set_nth {A : Type} (l : list A) (i : nat) (v : A) :
  (i < List.length l)%nat -> List.length (set_nth l i v) = List.length l.
Proof.
  intros Hi. unfold set_nth.
  rewrite length_app. cbn [List.length]. rewrite length_firstn, length_skipn. lia.
Qed.

Lemma shuffle_from_ok {A : Type} (i : nat) :
  forall (x : list A) (g : Rng),
  valid_rng g -> (i < List.length x \/ i = O)%nat ->
  exists x', shuffle_from i x g = (Ok x', after_draws i g) /\
             List.length x' = List.length x.
Proof.
  induction i as [|i IH]; intros x g Hg Hi.
  - exists x. rewrite after_draws_0. split; reflexivity.
  - assert (Hlen : (Datatypes.S i < List.length x)%nat) by lia.
    cbn [shuffle_from]. unfold bind.
    destruct (randbelow_range (Z.of_nat (Datatypes.S i) + 1) g Hg)
      as (j & -> & Hj); [lia|].
    destruct (getitem_ok x (Datatypes.S i) (after_draws 1 g) Hlen)
      as (xi & _ & ->).
    destruct (getitem_ok x (Z.to_nat j) (after_draws 1 g))
      as (xj & _ & ->); [lia|].
    rewrite setitem_ok by exact Hlen.
    rewrite setitem_ok by (rewrite length_set_nth; lia).
    destruct (IH (set_nth (set_nth x (Datatypes.S i) xj) (Z.to_nat j) xi)
                 (after_draws 1 g))
      as (x' & -> & Hx').
    + now apply valid_after_draws.
    + left. rewrite !length_set_nth; try lia. rewrite length_set_nth; lia.
    + exists x'. split.
      * rewrite after_draws_add. do 2 f_equal. lia.
      * rewrite Hx', !length_set_nth; try lia. rewrite length_set_nth; lia.
Qed.

Lemma shuffle_ok {A : Type} (x : list A) (g : Rng) :
  valid_rng g ->
  exists x', shuffle x g = (Ok x', after_draws (List.length x - 1) g) /\
             List.length x' = List.length x.
Proof.
  intros Hg. apply shuffle_from_ok; [exact Hg|].
  destruct x; cbn [List.length]; lia.
Qed.

Lemma instance_never_raises {H : Type} (get : H -> obj) (set : obj -> H -> H) :
  never_raises H (instance get set).
Proof.
  split.
  - intros w. eexists. reflexivity.
  - intros my opp w. cbn [instance choose_move].
    destruct (obj_choose_move (get (fst w)) my opp (snd w)) as [[m o] g].
    eauto.
Qed.

(** A contest between two of the six kinds always returns. *)
Lemma play_pair_ok (A B : obj) (g : Rng) :
  exists scores h g', play_pair A B g = (Ok (scores, h), g').
Proof.
  unfold play_pair.
  destruct (play_contest_total (obj * obj) sideA sideB
              (instance_never_raises _ _) (instance_never_raises _ _)
              ((A, B), g)) as (scores & [h g'] & ->).
  eauto.
Qed.

Lemma contest_step_ok (i : nat) (individuals : list obj) (payoffs : list Z)
  (g : Rng) :
  (i + 1 < List.length individuals)%nat ->
  List.length payoffs = List.length individuals ->
  exists individuals' payoffs' g',
    contest_step i (individuals, payoffs) g = (Ok (individuals', payoffs'), g') /\
    List.length individuals' = List.length individuals /\
    List.length payoffs' = List.length payoffs.
Proof.
  intros Hi Hlen. unfold contest_step, bind.
  destruct (getitem_ok individuals i g) as (A & _ & ->); [lia|].
  destruct (getitem_ok individuals (i + 1) g) as (B & _ & ->); [lia|].
  destruct (play_pair_ok A B g) as ([A_score B_score] & [A' B'] & g' & ->).
  destruct (getitem_ok payoffs i g') as (p & _ & ->); [lia|].
  rewrite setitem_ok by lia.
  destruct (getitem_ok (set_nth payoffs i (p + A_score)) (i + 1) g')
    as (q & _ & ->); [rewrite length_set_nth; lia|].
  rewrite setitem_ok by (rewrite length_set_nth; lia).
  do 3 eexists. split; [reflexivity|].
  rewrite !length_set_nth; try lia; rewrite length_set_nth; lia.
Qed.

Lemma contest_step_leftover (i : nat) (individuals : list obj)
  (payoffs : list Z) (g : Rng) :
  (i + 1 = List.length individuals)%nat ->
  contest_step i (individuals, payoffs) g = (Raise IndexError, g).
Proof.
  intros Hi. unfold contest_step, bind.
  destruct (getitem_ok individuals i g) as (A & _ & ->); [lia|].
  rewrite getitem_out by lia. reflexivity.
Qed.

Lemma contest_loop_odd (c : nat) :
  forall (a : nat) (individuals : list obj) (payoffs : list Z) (g : Rng),
  List.length individuals = (2 * (a + c) + 1)%nat ->
  List.length payoffs = List.length individuals ->
  exists g',
    contest_loop (map (fun k => (2 * k)%nat) (seq a (Datatypes.S c)))
                 (individuals, payoffs) g
    = (Raise IndexError, g').
Proof.
  induction c as [|c IH]; intros a individuals payoffs g Hodd Hlen.
  - cbn [seq map contest_loop]. unfold bind.
    rewrite contest_step_leftover by lia. eauto.
  - change (seq a (Datatypes.S (Datatypes.S c)))
      with (a :: seq (Datatypes.S a) (Datatypes.S c)).
    cbn [map contest_loop]. unfold bind.
    destruct (contest_step_ok (2 * a) individuals payoffs g)
      as (individuals' & payoffs' & g' & -> & Hi' & Hp'); [lia | exact Hlen |].
    apply IH; lia.
Qed.

Lemma range2_odd (m : nat) :
  range2 (Z.of_nat (2 * m + 1))
  = map (fun k => (2 * k)%nat) (seq 0 (Datatypes.S m)).
Proof.
  unfold range2. do 2 f_equal.
  replace ((Z.of_nat (2 * m + 1) + 1) / 2) with (Z.of_nat (Datatypes.S m)).
  - apply Nat2Z.id.
  - apply Z.div_unique with (r := 0); lia.
Qed.

(** C9: the code has no fallback for an odd population size.  With an odd
    number of individuals the pairing loop reaches the leftover individual
    at index population_size - 1 and [individuals[i+1]] raises IndexError. *)
Theorem odd_population_index_error (population_size : Z)
  (individuals : list obj) (g : Rng) :
  valid_rng g -> Z.odd population_size = true -> 0 < population_size ->
  len individuals = population_size ->
  exists g',
    contest_phase population_size individuals g = (Raise IndexError, g').
Proof.
  intros Hg Hodd Hpos Hlen. unfold contest_phase, bind.
  destruct (shuffle_ok individuals g Hg) as (shuffled & -> & Hshuffled).
  destruct (Zodd_ex population_size) as (m & Hm);
    [now apply Zodd_bool_iff|].
  unfold len in Hlen.
  replace population_size with (Z.of_nat (2 * Z.to_nat m + 1)) by lia.
  rewrite range2_odd.
  apply contest_loop_odd.
  - lia.
  - rewrite repeat_length, Hshuffled. lia.
Qed.

Lemma Qltb_lt (x y : Q) : Qltb x y = true <-> (x < y)%Q.
Proof.
  unfold Qltb. rewrite Bool.negb_true_iff. split.
  - intros Hle. apply Qnot_le_lt. intros Hyx.
    apply Qle_bool_iff in Hyx. congruence.
  - intros Hlt. destruct (Qle_bool y x) eqn:E; [|reflexivity].
    apply Qle_bool_iff in E. exfalso. exact (Qlt_not_le _ _ Hlt E).
Qed.

Lemma valid_rng_of (l : list Q) :
  forallb in_unit l = true -> valid_rng (rng_of l).
Proof.
  intros Hl i. cbn [rng_of draws].
  destruct (nth_in_or_default i l (1 # 2)) as [Hin | ->].
  - rewrite forallb_forall in Hl. specialize (Hl _ Hin).
    unfold in_unit in Hl. apply Bool.andb_true_iff in Hl as [H0 H1].
    split; [now apply Qle_bool_iff | now apply Qltb_lt].
  - split; lra.
Qed.

Lemma odd_population_index_error_witness :
  exists g',
    contest_phase 3 [new cMouse; new cHawk; new cMouse] (rng_of [])
    = (Raise IndexError, g').
Proof.
  apply odd_population_index_error;
    [apply valid_rng_of; reflexivity | reflexivity | lia | reflexivity].
Defined.

(** One generation of Mouse and Hawk at population size 3, whole. *)
Lemma odd_population_generation :
  fst (evolutionary_simulation [cMouse; cHawk] [1 # 2; 1 # 2] 1 3 (rng_of []))
  = Raise IndexError.
Proof. vm_compute. reflexivity. Qed.

Lemma nth_error_set_nth_eq {A : Type} (l : list A) (i : nat) (v : A) :
  (i < List.length l)%nat -> nth_error (set_nth l i v) i = Some v.
Proof.
  intros Hi. unfold set_nth.
  rewrite nth_error_app2 by (rewrite length_firstn; lia).
  rewrite length_firstn.
  replace (i - Nat.min i (List.length l))%nat with O by lia. reflexivity.
Qed.

Lemma nth_error_set_nth_neq {A : Type} (l : list A) (i j : nat) (v : A) :
  (i < List.length l)%nat -> j <> i ->
  nth_error (set_nth l i v) j = nth_error l j.
Proof.
  intros Hi Hj. unfold set_nth.
  destruct (Nat.lt_ge_cases j i) as [Hlt | Hge].
  - rewrite nth_error_app1 by (rewrite length_firstn; lia).
    rewrite nth_error_firstn.
    apply Nat.ltb_lt in Hlt. now rewrite Hlt.
  - rewrite nth_error_app2 by (rewrite length_firstn; lia).
    rewrite length_firstn.
    replace (j - Nat.min i (List.length l))%nat
      with (Datatypes.S (j - Datatypes.S i)) by lia.
    cbn [nth_error]. rewrite nth_error_skipn. f_equal. lia.
Qed.

Lemma class_eqb_eq (s t : StrategyClass) : class_eqb s t = true <-> s = t.
Proof. destruct s, t; cbn; split; congruence. Qed.

(** The loop that looks for Hawk raises the first Hawk entry, and only
    that one. *)
Lemma raise_hawk_spec (mutation_amount : Q) (population : distribution) :
  In cHawk (map fst population) ->
  exists hawk_index fr,
    nth_error population hawk_index = Some (cHawk, fr) /\
    nth_error (raise_hawk mutation_amount population) hawk_index
    = Some (cHawk, (fr + mutation_amount)%Q) /\
    (forall i, i <> hawk_index ->
               nth_error (raise_hawk mutation_amount population) i
               = nth_error population i).
Proof.
  induction population as [|[st fr] rest IH]; cbn [map In fst]; [tauto|].
  intros Hin. cbn [raise_hawk].
  destruct (class_eqb st cHawk) eqn:E.
  - apply class_eqb_eq in E. subst st. exists O, fr.
    repeat split. intros [|i] Hi; [congruence | reflexivity].
  - destruct Hin as [-> | Hin]; [discriminate E|].
    destruct (IH Hin) as (k & fr' & Hk & Hk' & Hrest).
    exists (Datatypes.S k), fr'. repeat split; try assumption.
    intros [|i] Hi; [reflexivity|]. cbn [nth_error]. apply Hrest. congruence.
Qed.

Lemma mutation_amount_bounds (freq : Q) :
  (0 < freq)%Q ->
  let mutation_amount := Qmin (freq * (1 # 10)) (5 # 100) in
  (0 < mutation_amount)%Q /\ (mutation_amount <= 5 # 100)%Q /\
  (mutation_amount <= freq * (1 # 10))%Q.
Proof.
  intros Hfreq mutation_amount. subst mutation_amount.
  repeat split.
  - apply Q.min_glb_lt; lra.
  - apply Q.le_min_r.
  - apply Q.le_min_l.
Qed.

(** C6 (amended): when the mutation step triggers, the index it picks is
    one draw scaled to the whole distribution, Hawk's entry included.  If
    the picked kind is Hawk the distribution is left as it is.  Otherwise,
    with Hawk in the roster, the picked kind's frequency strictly decreases
    and the frequency of the first Hawk entry strictly increases by the same
    amount min(freq/10, 0.05), which is positive and at most 0.05; every
    other entry is unchanged and no frequency becomes negative. *)
Theorem mutation_shifts_to_hawk (population : distribution) (g : Rng) :
  valid_rng g ->
  (forall sf, In sf population -> (0 < snd sf)%Q) ->
  In cHawk (map fst population) ->
  Qltb (draws g (pos g)) MUTATION_RATE = true ->
  exists mut_index s freq,
    Z.of_nat mut_index
    = Qfloor (draws g (1 + pos g) * inject_Z (len population)) /\
    nth_error population mut_index = Some (s, freq) /\
    (s = cHawk -> mutation population g = (Ok population, after_draws 2 g)) /\
    (s <> cHawk ->
     let mutation_amount := Qmin (freq * (1 # 10)) (5 # 100) in
     exists hawk_index fr population',
       mutation population g = (Ok population', after_draws 2 g) /\
       nth_error population hawk_index = Some (cHawk, fr) /\
       (0 < mutation_amount)%Q /\ (mutation_amount <= 5 # 100)%Q /\
       nth_error population' mut_index
       = Some (s, (freq - mutation_amount)%Q) /\
       (freq - mutation_amount < freq)%Q /\
       nth_error population' hawk_index
       = Some (cHawk, (fr + mutation_amount)%Q) /\
       (fr < fr + mutation_amount)%Q /\
       (forall i, i <> mut_index -> i <> hawk_index ->
                  nth_error population' i = nth_error population i) /\
       (forall sf, In sf population' -> (0 <= snd sf)%Q)).
Proof.
  intros Hg Hpos Hhawk Htrigger.
  assert (Hne : 0 < len population).
  { unfold len. destruct population; [destruct Hhawk | cbn [List.length]; lia]. }
  destruct (randbelow_range (len population) (after_draws 1 g)
              (valid_after_draws 1 g Hg) Hne) as (j & Hj & Hrange).
  assert (Hjdef : j = Qfloor (draws g (1 + pos g) * inject_Z (len population))).
  { unfold randbelow, bind in Hj. rewrite rng_random_draw in Hj.
    unfold ret in Hj. now inversion Hj. }
  rewrite after_draws_add in Hj. cbn [Nat.add] in Hj.
  assert (Hidx : (Z.to_nat j < List.length population)%nat)
    by (unfold len in Hrange; lia).
  destruct (getitem_ok population (Z.to_nat j) (after_draws 2 g) Hidx)
    as ([s freq] & Hnth & Hget).
  exists (Z.to_nat j), s, freq.
  split; [rewrite <- Hjdef; lia|]. split; [exact Hnth|]. split.
  - intros ->. unfold mutation.
    unfold bind. rewrite rng_random_draw, Htrigger. unfold randrange.
    destruct (Z.leb_spec (len population) 0) as [Hle|_]; [lia|].
    rewrite Hj, Hget. reflexivity.
  - intros Hs mutation_amount.
    assert (Hfreq : (0 < freq)%Q)
      by (apply (Hpos (s, freq)); eapply nth_error_In; eauto).
    destruct (mutation_amount_bounds freq Hfreq) as (Ha0 & Hacap & Ha10).
    fold mutation_amount in Ha0, Hacap, Ha10.
    set (lowered := set_nth population (Z.to_nat j)
                            (s, (freq - mutation_amount)%Q)).
    assert (Hhawk' : In cHawk (map fst lowered)).
    { apply in_map_iff in Hhawk as ([st fr] & Hst & Hin).
      cbn [fst] in Hst. subst st.
      apply In_nth_error in Hin as (i & Hi).
      apply in_map_iff. exists (cHawk, fr). split; [reflexivity|].
      apply nth_error_In with i. subst lowered.
      rewrite nth_error_set_nth_neq; [exact Hi | exact Hidx |].
      intros ->. rewrite Hnth in Hi. congruence. }
    destruct (raise_hawk_spec mutation_amount lowered Hhawk')
      as (hawk_index & fr & Hh & Hh' & Hrest).
    assert (Hdiff : hawk_index <> Z.to_nat j).
    { intros ->. subst lowered.
      rewrite nth_error_set_nth_eq in Hh by exact Hidx. congruence. }
    assert (Hh0 : nth_error population hawk_index = Some (cHawk, fr)).
    { subst lowered. rewrite nth_error_set_nth_neq in Hh; assumption. }
    exists hawk_index, fr, (raise_hawk mutation_amount lowered).
    split.
    { unfold mutation, bind. rewrite rng_random_draw, Htrigger.
      unfold randrange.
      destruct (Z.leb_spec (len population) 0) as [Hle|_]; [lia|].
      rewrite Hj, Hget.
      destruct (class_eqb s cHawk) eqn:E;
        [apply class_eqb_eq in E; contradiction|].
      cbn [negb]. rewrite setitem_ok by exact Hidx. reflexivity. }
    split; [exact Hh0|]. split; [exact Ha0|]. split; [exact Hacap|].
    split.
    { rewrite Hrest by congruence. subst lowered.
      now apply nth_error_set_nth_eq. }
    split; [lra|]. split; [exact Hh'|]. split; [lra|]. split.
    { intros i Hi1 Hi2. rewrite Hrest by exact Hi2. subst lowered.
      now apply nth_error_set_nth_neq. }
    intros sf Hin. apply In_nth_error in Hin as (i & Hi).
    destruct (Nat.eq_dec i hawk_index) as [-> | Hi1].
    { rewrite Hh' in Hi. inversion Hi. cbn [snd].
      assert ((0 < fr)%Q) by (apply (Hpos (cHawk, fr)); eapply nth_error_In; eauto).
      lra. }
    rewrite Hrest in Hi by exact Hi1. subst lowered.
    destruct (Nat.eq_dec i (Z.to_nat j)) as [-> | Hi2].
    { rewrite nth_error_set_nth_eq in Hi by exact Hidx.
      inversion Hi. cbn [snd]. lra. }
    rewrite nth_error_set_nth_neq in Hi by assumption.
    apply Qlt_le_weak. apply (Hpos sf). eapply nth_error_In; eauto.
Qed.

(** Mouse and Hawk at one half each; the step triggers (draw 0) and picks
    index 0 (draw 0), Mouse. *)
Lemma mutation_shifts_to_hawk_witness :
  exists population',
    mutation [(cMouse, 1 # 2); (cHawk, 1 # 2)] (rng_of [0; 0]%Q)
    = (Ok population', after_draws 2 (rng_of [0; 0]%Q)).
Proof.
  destruct (mutation_shifts_to_hawk
              [(cMouse, 1 # 2); (cHawk, 1 # 2)] (rng_of [0; 0]%Q))
    as (mut_index & s & freq & _ & _ & Hhawk & Hother).
  - apply valid_rng_of. reflexivity.
  - intros sf [<- | [<- | []]]; reflexivity.
  - right. left. reflexivity.
  - reflexivity.
  - destruct (class_eqb s cHawk) eqn:E.
    + apply class_eqb_eq in E. eexists. exact (Hhawk E).
    + assert (Hs : s <> cHawk)
        by (intros Heq; apply class_eqb_eq in Heq; congruence).
      destruct (Hother Hs) as (_ & _ & population' & Hrun & _).
      exists population'. exact Hrun.
Defined.

(** C6 as stated fails: with Mouse and Hawk at one half each, the step
    triggers (draw 0 < 0.01) and [randrange] picks index 1 (draw 1/2), the
    sink kind Hawk itself; no frequency decreases and none increases. *)
Lemma mutation_claim_counterexample :
  let population := [(cMouse, 1 # 2); (cHawk, 1 # 2)] in
  let g := rng_of [0; 1 # 2]%Q in
  Qltb (draws g 0) MUTATION_RATE = true /\
  randrange (len population) (after_draws 1 g) = (Ok 1, after_draws 2 g) /\
  nth_error population 1 = Some (cHawk, 1 # 2) /\
  mutation population g = (Ok population, after_draws 2 g).
Proof.
  cbv zeta. repeat split; reflexivity.
Qed.

(** C5: the code loses frequency when Hawk is not in the roster.  One
    generation of Mouse and Bully at one half each and population size 2,
    with the mutation step triggering on Mouse: the input is non-negative
    and sums to 1, the output sums to less than 1. *)
Theorem mutation_without_hawk_loses_frequency :
  let strategies := [cMouse; cBully] in
  let population := [(cMouse, 1 # 2); (cBully, 1 # 2)] in
  let g := rng_of [1 # 2; 1 # 2; 0; 0]%Q in
  (Qsum (map snd population) == 1)%Q /\
  (forall sf, In sf population -> (0 <= snd sf)%Q) /\
  fst (generation strategies 2 population g)
  = Ok [(cMouse, 243432 # 761760); (cBully, 178 # 276)] /\
  (Qsum [243432 # 761760; 178 # 276] < 1)%Q.
Proof.
  cbv zeta.
  split; [reflexivity|].
  split; [intros sf [<- | [<- | []]]; discriminate|].
  split; [vm_compute; reflexivity | reflexivity].
Qed.

(** ** The sampling phase *)

Lemma Qltb_ge (x y : Q) : Qltb x y = false <-> (y <= x)%Q.
Proof.
  unfold Qltb. rewrite Bool.negb_false_iff. apply Qle_bool_iff.
Qed.

Lemma py_int_floor (q : Q) : (0 <= q)%Q -> py_int q = Qfloor q.
Proof.
  destruct q as [n d]. unfold Qle, py_int, Qfloor. cbn [Qnum Qden].
  intros Hn. apply Z.quot_div_nonneg; lia.
Qed.

(** ** Rounding to a double *)

Lemma round_half_even_nonneg (x : Q) : (0 <= x)%Q -> 0 <= round_half_even x.
Proof.
  intros Hx.
  assert (Hf : 0 <= Qfloor x).
  { change 0 with (Qfloor 0). now apply Qfloor_resp_le. }
  unfold round_half_even.
  destruct (Qltb _ _); [exact Hf|].
  destruct (Qltb _ _); [lia|].
  destruct (Z.even _); lia.
Qed.

(** Rounding keeps the sign: a non-negative real rounds to a non-negative
    double. *)
Lemma round_double_nonneg (x : Q) : (0 <= x)%Q -> (0 <= round_double x)%Q.
Proof.
  intros Hx. unfold round_double.
  destruct (Qeq_bool x 0); [apply Qle_refl|].
  destruct (Qltb x 0) eqn:E; [apply Qltb_lt in E; lra|].
  set (quantum := (2 ^ (Z.max (ilog2 (Qabs x)) (-1022) - 52))%Q).
  assert (Hq : (0 < quantum)%Q) by (apply Qpower_0_lt; reflexivity).
  apply Qmult_le_0_compat; [|lra].
  change 0%Q with (inject_Z 0). rewrite <- Zle_Qle.
  apply round_half_even_nonneg, Qle_shift_div_l; [exact Hq|].
  pose proof (Qabs_nonneg x). lra.
Qed.

(** On a non-negative frequency [int] is the floor of the rounded
    product. *)
Lemma count_floor (freq : Q) (population_size : Z) :
  0 <= population_size -> (0 <= freq)%Q ->
  py_int (float_mul freq (float_of_int population_size))
  = Qfloor (float_mul freq (float_of_int population_size)).
Proof.
  intros Hsize Hfreq. apply py_int_floor, round_double_nonneg.
  apply Qmult_le_0_compat; [exact Hfreq|].
  apply round_double_nonneg.
  change 0%Q with (inject_Z 0). now rewrite <- Zle_Qle.
Qed.

Lemma class_of_new (s : StrategyClass) : class_of (new s) = s.
Proof. destruct s; reflexivity. Qed.

Lemma class_of_map_new (kinds : list StrategyClass) :
  map class_of (map new kinds) = kinds.
Proof.
  rewrite map_map, (map_ext _ (fun s => s) class_of_new). apply map_id.
Qed.

Lemma instantiate_floor (population : distribution) (population_size : Z) :
  0 <= population_size ->
  (forall sf, In sf population -> (0 <= snd sf)%Q) ->
  instantiate population population_size
  = map new
      (flat_map
         (fun sf =>
            repeat (fst sf)
                   (Z.to_nat
                      (Qfloor
                         (float_mul (snd sf) (float_of_int population_size)))))
         population).
Proof.
  intros Hsize. unfold instantiate.
  induction population as [|sf rest IH]; intros Hpos; [reflexivity|].
  cbn [flat_map]. rewrite map_app, map_repeat.
  rewrite IH by (intros; apply Hpos; now right).
  rewrite count_floor; [reflexivity | exact Hsize | apply Hpos; now left].
Qed.

Lemma length_accumulate_from (ws : list Q) :
  forall acc, List.length (accumulate_from acc ws) = List.length ws.
Proof.
  induction ws as [|w ws IH]; intros acc; cbn [accumulate_from List.length];
    [reflexivity | now rewrite IH].
Qed.

Lemma length_accumulate (ws : list Q) :
  List.length (accumulate ws) = List.length ws.
Proof.
  destruct ws; cbn [accumulate List.length];
    [reflexivity | now rewrite length_accumulate_from].
Qed.

Lemma last_cons_default {A : Type} (l : list A) :
  forall a d, last (a :: l) d = last l a.
Proof.
  induction l as [|b l IH]; intros a d; [reflexivity|].
  change (last (a :: b :: l) d) with (last (b :: l) d).
  now rewrite !IH.
Qed.

Lemma rev_head_last {A : Type} (l : list A) (d : A) :
  l <> [] -> exists rest, rev l = last l d :: rest.
Proof.
  intros Hl. exists (rev (removelast l)).
  rewrite (app_removelast_last d Hl) at 1.
  now rewrite rev_app_distr.
Qed.

(** The last cumulative weight is the total of the weights. *)
Lemma last_accumulate_from (ws : list Q) :
  forall acc, (last (accumulate_from acc ws) acc == acc + Qsum ws)%Q.
Proof.
  induction ws as [|w ws IH]; intros acc; cbn [accumulate_from Qsum fold_right].
  - cbn [last]. ring.
  - rewrite last_cons_default, IH. fold (Qsum ws). ring.
Qed.

Lemma last_accumulate (ws : list Q) :
  (last (accumulate ws) 0 == Qsum ws)%Q.
Proof.
  destruct ws as [|w ws]; cbn [accumulate]; [reflexivity|].
  rewrite last_cons_default. apply last_accumulate_from.
Qed.

Lemma Qsum_cons (w : Q) (l : list Q) : Qsum (w :: l) = (w + Qsum l)%Q.
Proof. reflexivity. Qed.

Lemma Qsum_nil : Qsum [] = 0%Q.
Proof. reflexivity. Qed.

(** The scan stops at the first cumulative weight above [x]: the index it
    returns is the one whose cumulative interval contains [x]. *)
Lemma bisect_accumulate_from (ws : list Q) :
  forall (acc x : Q),
  ws <> [] -> (acc <= x)%Q -> (x < acc + Qsum ws)%Q ->
  let i := bisect (accumulate_from acc ws) x (List.length ws - 1) in
  (i < List.length ws)%nat /\
  (acc + Qsum (firstn i ws) <= x)%Q /\
  (x < acc + Qsum (firstn (Datatypes.S i) ws))%Q.
Proof.
  induction ws as [|w ws IH]; intros acc x Hne Hlo Hhi; [congruence|].
  rewrite Qsum_cons in Hhi.
  destruct ws as [|w' ws'] eqn:Ews.
  - cbn [List.length Nat.sub bisect accumulate_from firstn].
    rewrite Qsum_cons, Qsum_nil in *. repeat split; [lia | lra | lra].
  - rewrite <- Ews in *.
    assert (Hws : ws <> []) by (rewrite Ews; discriminate).
    assert (Hlen : (List.length ws <> 0)%nat) by (rewrite Ews; discriminate).
    replace (List.length (w :: ws) - 1)%nat
      with (Datatypes.S (List.length ws - 1)) by (cbn [List.length]; lia).
    cbn [accumulate_from bisect].
    destruct (Qltb x (acc + w)) eqn:E.
    + apply Qltb_lt in E. cbn [firstn]. rewrite Qsum_cons, !Qsum_nil.
      cbn [List.length]. repeat split; [lia | lra | lra].
    + apply Qltb_ge in E.
      destruct (IH (acc + w)%Q x) as (Hi & Hlow & Hhigh);
        [exact Hws | exact E | lra |].
      set (i := bisect (accumulate_from (acc + w) ws) x
                       (List.length ws - 1)) in *.
      rewrite !firstn_cons, !Qsum_cons. cbn [List.length].
      repeat split; [lia | lra | lra].
Qed.

Lemma bisect_accumulate (ws : list Q) (x : Q) :
  ws <> [] -> (0 <= x)%Q -> (x < Qsum ws)%Q ->
  let i := bisect (accumulate ws) x (List.length ws - 1) in
  (i < List.length ws)%nat /\
  (Qsum (firstn i ws) <= x)%Q /\
  (x < Qsum (firstn (Datatypes.S i) ws))%Q.
Proof.
  destruct ws as [|w ws]; intros Hne Hlo Hhi; [congruence|].
  rewrite Qsum_cons in Hhi.
  destruct ws as [|w' ws'] eqn:Ews.
  - cbn [List.length Nat.sub bisect accumulate firstn].
    rewrite Qsum_cons, Qsum_nil in *. repeat split; [lia | lra | lra].
  - rewrite <- Ews in *.
    assert (Hws : ws <> []) by (rewrite Ews; discriminate).
    assert (Hlen : (List.length ws <> 0)%nat) by (rewrite Ews; discriminate).
    replace (List.length (w :: ws) - 1)%nat
      with (Datatypes.S (List.length ws - 1)) by (cbn [List.length]; lia).
    cbn [accumulate bisect].
    destruct (Qltb x w) eqn:E.
    + apply Qltb_lt in E. cbn [firstn]. rewrite Qsum_cons, !Qsum_nil.
      cbn [List.length]. repeat split; [lia | lra | lra].
    + apply Qltb_ge in E.
      destruct (bisect_accumulate_from ws w x) as (Hi & Hlow & Hhigh);
        [exact Hws | exact E | lra |].
      set (i := bisect (accumulate_from w ws) x (List.length ws - 1)) in *.
      rewrite !firstn_cons, !Qsum_cons. cbn [List.length].
      repeat split; [lia | lra | lra].
Qed.

(** [random.choices] with the frequencies as weights: the kind drawn is
    the one whose cumulative-frequency interval contains the draw scaled by
    the total, so each kind is drawn for a share of the draws proportional
    to its frequency. *)
Lemma choices_spec (strategies : list StrategyClass) (weights : list Q)
  (g : Rng) :
  valid_rng g -> List.length strategies = List.length weights ->
  (0 < Qsum weights)%Q ->
  exists i s,
    choices strategies weights g = (Ok s, after_draws 1 g) /\
    nth_error strategies i = Some s /\
    (Qsum (firstn i weights) <= draws g (pos g) * Qsum weights)%Q /\
    (draws g (pos g) * Qsum weights < Qsum (firstn (Datatypes.S i) weights))%Q.
Proof.
  intros Hg Hlen Htotal.
  assert (Hne : weights <> []) by (intros ->; rewrite Qsum_nil in Htotal; lra).
  assert (Hcum : accumulate weights <> []).
  { intros Hnil. apply (f_equal (@List.length Q)) in Hnil.
    rewrite length_accumulate in Hnil. destruct weights; [congruence|discriminate]. }
  unfold choices.
  rewrite length_accumulate, Hlen, Nat.eqb_refl. cbn [negb].
  destruct (rev_head_last (accumulate weights) 0%Q Hcum) as (rest & ->).
  pose proof (last_accumulate weights) as Hlast.
  set (total := last (accumulate weights) 0%Q) in *.
  destruct (Qle_bool total 0) eqn:E;
    [apply Qle_bool_iff in E; rewrite Hlast in E; lra|].
  unfold bind. rewrite rng_random_draw.
  destruct (Hg (pos g)) as [Hu0 Hu1].
  set (u := draws g (pos g)) in *.
  assert (Hx : (u * total == u * Qsum weights)%Q) by (now rewrite Hlast).
  destruct (bisect_accumulate weights (u * total)%Q Hne)
    as (Hi & Hlow & Hhigh).
  - rewrite Hx. apply Qmult_le_0_compat; lra.
  - rewrite Hx.
    setoid_replace (Qsum weights) with (1 * Qsum weights)%Q at 2 by ring.
    now apply Qmult_lt_compat_r.
  - set (i := bisect (accumulate weights) (u * total)%Q
                     (List.length weights - 1)) in *.
    rewrite <- Hlen in Hi.
    destruct (getitem_ok strategies i (after_draws 1 g) Hi) as (s & Hs & ->).
    exists i, s.
    split; [reflexivity|]. split; [exact Hs|].
    split; [rewrite <- Hx; exact Hlow | rewrite <- Hx; exact Hhigh].
Qed.

(** The first loop: one drawn kind, and one fresh individual of it, per
    pass until the target size. *)
Lemma fill_kinds_spec (strategies : list StrategyClass)
  (population : distribution) (population_size : Z) (fuel : nat) :
  forall (individuals : list obj) (g : Rng),
  valid_rng g -> List.length strategies = List.length population ->
  (0 < Qsum (map snd population))%Q ->
  fuel = Z.to_nat (population_size - len individuals) ->
  exists drawn : list StrategyClass,
    fill fuel strategies population population_size individuals g
    = (Ok (individuals ++ map new drawn), after_draws fuel g) /\
    List.length drawn = fuel /\
    (forall j, (j < fuel)%nat ->
       exists i s,
         nth_error strategies i = Some s /\
         nth_error drawn j = Some s /\
         (Qsum (firstn i (map snd population))
          <= draws g (j + pos g) * Qsum (map snd population))%Q /\
         (draws g (j + pos g) * Qsum (map snd population)
          < Qsum (firstn (Datatypes.S i) (map snd population)))%Q).
Proof.
  induction fuel as [|fuel IH]; intros individuals g Hg Hlen Htotal Hfuel.
  - exists []. cbn [fill map]. rewrite app_nil_r, after_draws_0.
    repeat split. intros j Hj. lia.
  - cbn [fill].
    destruct (Z.ltb_spec (len individuals) population_size) as [_|Hge]; [|lia].
    unfold bind.
    destruct (choices_spec strategies (map snd population) g Hg)
      as (i & s & -> & Hs & Hlow & Hhigh);
      [now rewrite length_map | exact Htotal |].
    destruct (IH (individuals ++ [new s]) (after_draws 1 g))
      as (drawn & -> & Hfilled & Hdrawn);
      [now apply valid_after_draws | exact Hlen | exact Htotal
       | unfold len in *; rewrite length_app; cbn [List.length]; lia |].
    exists (s :: drawn). cbn [map]. rewrite <- app_assoc, after_draws_add.
    replace (fuel + 1)%nat with (Datatypes.S fuel) by lia.
    repeat split; [cbn [List.length]; now rewrite Hfilled|].
    intros [|j] Hj.
    + exists i, s. cbn [nth_error Nat.add]. auto.
    + destruct (Hdrawn j) as (i' & s' & Hs' & Hj' & Hlow' & Hhigh'); [lia|].
      exists i', s'. cbn [nth_error after_draws draws pos] in *.
      replace (Datatypes.S j + pos g)%nat with (j + (1 + pos g))%nat by lia.
      auto.
Qed.


(** The second loop: individuals are popped from the end down to the
    target size. *)
Lemma trim_spec (population_size : Z) (fuel : nat) :
  forall (individuals : list obj) (g : Rng),
  0 <= population_size -> (List.length individuals < fuel)%nat ->
  trim fuel population_size individuals g
  = (Ok (firstn (Z.to_nat population_size) individuals), g).
Proof.
  induction fuel as [|fuel IH]; intros individuals g Hsize Hfuel; [lia|].
  cbn [trim].
  destruct (Z.ltb_spec population_size (len individuals)) as [Hlt|Hge].
  - unfold len in Hlt.
    destruct individuals as [|x l] eqn:E; [cbn [List.length] in Hlt; lia|].
    rewrite <- E in *.
    assert (Hne : individuals <> []) by (rewrite E; discriminate).
    rewrite IH; [|exact Hsize|].
    + rewrite removelast_firstn_len, firstn_firstn.
      do 3 f_equal. lia.
    + rewrite removelast_firstn_len, length_firstn. rewrite E in *.
      cbn [List.length] in *. lia.
  - unfold len in Hge. rewrite firstn_all2 by lia. reflexivity.
Qed.

(** C7: the sampling phase returns exactly population_size individuals,
    each a fresh instance of a kind of the distribution or of the roster.
    It first instantiates, kind by kind in the order of the distribution,
    floor(frequency * population_size) individuals, the product being the
    float product; a shortfall is filled, one draw per missing individual,
    with an individual of the roster kind whose cumulative-frequency
    interval contains the scaled draw (so kinds are drawn in proportion to
    the current frequencies, not uniformly); a surplus is cut back to the
    first population_size individuals, without any draw.  The population
    size and the products are within the range of the finite doubles. *)
Theorem sampling_exact_size (strategies : list StrategyClass)
  (population : distribution) (population_size : Z) (g : Rng) :
  valid_rng g -> 0 <= population_size ->
  float_finite (inject_Z population_size) ->
  List.length strategies = List.length population ->
  (forall sf, In sf population -> (0 <= snd sf)%Q) ->
  (forall sf, In sf population ->
     float_finite (snd sf * float_of_int population_size)) ->
  (0 < Qsum (map snd population))%Q ->
  let weights := map snd population in
  let count (freq : Q) :=
    Z.to_nat (Qfloor (float_mul freq (float_of_int population_size))) in
  let built := flat_map (fun sf => repeat (fst sf) (count (snd sf))) population in
  exists (individuals : list obj) (drawn : list StrategyClass),
    sampling strategies population population_size g
    = (Ok individuals, after_draws (List.length drawn) g) /\
    len individuals = population_size /\
    individuals
    = map new (firstn (Z.to_nat population_size) (built ++ drawn)) /\
    map class_of individuals
    = firstn (Z.to_nat population_size) (built ++ drawn) /\
    List.length drawn = Z.to_nat (population_size - len built) /\
    (forall j, (j < List.length drawn)%nat ->
       exists i s,
         nth_error strategies i = Some s /\
         nth_error drawn j = Some s /\
         (Qsum (firstn i weights) <= draws g (j + pos g) * Qsum weights)%Q /\
         (draws g (j + pos g) * Qsum weights
          < Qsum (firstn (Datatypes.S i) weights))%Q).
Proof.
  intros Hg Hsize _ Hlen Hpos _ Htotal weights count built.
  assert (Hinst : instantiate population population_size = map new built)
    by (apply instantiate_floor; assumption).
  assert (Hbuilt : len (map new built) = len built)
    by (unfold len; now rewrite length_map).
  unfold sampling. rewrite Hinst, Hbuilt.
  destruct (fill_kinds_spec strategies population population_size
              (Z.to_nat (population_size - len built)) (map new built) g
              Hg Hlen Htotal)
    as (drawn & Hfill & Hdrawn & Hkinds); [now rewrite Hbuilt|].
  exists (map new (firstn (Z.to_nat population_size) (built ++ drawn))), drawn.
  unfold bind. rewrite Hfill, trim_spec by (exact Hsize || lia).
  rewrite <- map_app, firstn_map, class_of_map_new, Hdrawn.
  repeat split; try assumption.
  unfold len in *. rewrite length_map, length_firstn, length_app, Hdrawn. lia.
Qed.

(** Mouse, Bully and Hawk at the double nearest to 1/3 each and population
    size 4: one individual of each kind is built, and the fourth is drawn
    with the draw 9/10, which falls in Hawk's interval. *)
Lemma sampling_exact_size_witness :
  exists individuals,
    fst (sampling [cMouse; cBully; cHawk]
           [(cMouse, round_double (1 # 3)); (cBully, round_double (1 # 3));
            (cHawk, round_double (1 # 3))] 4
           (rng_of [9 # 10]))
    = Ok individuals /\
    len individuals = 4 /\
    map class_of individuals = [cMouse; cBully; cHawk; cHawk].
Proof.
  destruct (sampling_exact_size [cMouse; cBully; cHawk]
              [(cMouse, round_double (1 # 3)); (cBully, round_double (1 # 3));
               (cHawk, round_double (1 # 3))] 4
              (rng_of [9 # 10]))
    as (individuals & drawn & Hrun & Hsize & _ & Hkinds & Hdrawn & Hdraw).
  - apply valid_rng_of. reflexivity.
  - lia.
  - vm_compute. reflexivity.
  - reflexivity.
  - intros sf [<- | [<- | [<- | []]]]; vm_compute; discriminate.
  - intros sf [<- | [<- | [<- | []]]]; vm_compute; reflexivity.
  - vm_compute. reflexivity.
  - exists individuals. rewrite Hrun.
    split; [reflexivity|]. split; [exact Hsize|].
    replace (Z.to_nat _) with 1%nat in Hdrawn by (vm_compute; reflexivity).
    destruct drawn as [|s [|s' drawn]]; try discriminate Hdrawn.
    destruct (Hdraw 0%nat) as (i & s0 & Hs0 & Hj & Hlow & Hhigh);
      [cbn [List.length]; lia|].
    cbn [nth_error] in Hj. injection Hj as <-.
    rewrite Hkinds. vm_compute.
    destruct i as [|[|[|i]]];
      [vm_compute in Hhigh; discriminate Hhigh
      |vm_compute in Hhigh; discriminate Hhigh
      |cbn [nth_error] in Hs0; injection Hs0 as <-; reflexivity
      |destruct i; discriminate Hs0].
Defined.

(** The double nearest to 1/3 times 6 is the double 2, although the exact
    product is below 2: at population size 6 two individuals of each of
    three kinds are built and no draw is made. *)
Lemma sampling_thirds_of_six (g : Rng) :
  let third := round_double (1 # 3) in
  (third == 6004799503160661 # 18014398509481984)%Q /\
  Qfloor (third * 6) = 1 /\
  Qfloor (float_mul third (float_of_int 6)) = 2 /\
  sampling [cMouse; cBully; cHawk]
    [(cMouse, third); (cBully, third); (cHawk, third)] 6 g
  = (Ok (map new [cMouse; cMouse; cBully; cBully; cHawk; cHawk]), g).
Proof.
  repeat split; vm_compute; reflexivity.
Qed.

(** ** The frequency update when Hawk is in the roster *)

Lemma fold_left_Qplus (l : list Q) :
  forall a, (fold_left Qplus l a == a + Qsum l)%Q.
Proof.
  induction l as [|x l IH]; intros a; cbn [fold_left].
  - rewrite Qsum_nil. ring.
  - rewrite IH, Qsum_cons. ring.
Qed.

Lemma fitness_positive (strat_payoff strat_count : Z) :
  (0 < fitness strat_payoff strat_count)%Q.
Proof.
  unfold fitness. apply Qlt_le_trans with (1 # 100)%Q; [reflexivity|].
  apply Q.le_max_r.
Qed.

Lemma Qsum_positive (l : list Q) :
  l <> [] -> (forall x, In x l -> (0 < x)%Q) -> (0 < Qsum l)%Q.
Proof.
  induction l as [|x l IH]; intros Hne Hpos; [congruence|].
  rewrite Qsum_cons.
  assert (Hx : (0 < x)%Q) by (apply Hpos; now left).
  destruct l as [|y l].
  - rewrite Qsum_nil. lra.
  - assert ((0 < Qsum (y :: l))%Q)
      by (apply IH; [discriminate | intros; apply Hpos; now right]).
    lra.
Qed.

Lemma Qsum_scaled (total : Q) (l : distribution) :
  ~ (total == 0)%Q ->
  (Qsum (map snd (map (fun sf => (fst sf, (snd sf / total)%Q)) l))
   == Qsum (map snd l) / total)%Q.
Proof.
  intros Htotal. induction l as [|[s f] l IH]; cbn [map fst snd].
  - rewrite Qsum_nil. field. exact Htotal.
  - rewrite !Qsum_cons, IH. field. exact Htotal.
Qed.

(** Normalization of a fitness table never divides by zero and yields
    positive frequencies that sum to 1. *)
Lemma normalize_distribution (strategies : list StrategyClass)
  (d : dict * dict) (g : Rng) :
  strategies <> [] ->
  exists population,
    normalize (fitness_table strategies d) g = (Ok population, g) /\
    map fst population = strategies /\
    (forall sf, In sf population -> (0 < snd sf)%Q) /\
    (Qsum (map snd population) == 1)%Q.
Proof.
  intros Hne. unfold normalize.
  set (table := fitness_table strategies d).
  assert (Htable : forall sf, In sf table -> (0 < snd sf)%Q).
  { intros sf Hin. apply in_map_iff in Hin as (s & <- & _).
    apply fitness_positive. }
  assert (Hnil : table <> []).
  { subst table. destruct strategies; [congruence | discriminate]. }
  assert (Htotal : (0 < total_of table)%Q).
  { unfold total_of. rewrite fold_left_Qplus.
    assert ((0 < Qsum (map snd table))%Q).
    { apply Qsum_positive.
      - destruct table; [congruence | discriminate].
      - intros x Hx. apply in_map_iff in Hx as (sf & <- & Hin). now apply Htable. }
    lra. }
  destruct table as [|sf0 rest] eqn:E; [congruence|]. rewrite <- E in *.
  destruct (Qeq_bool (total_of table) 0) eqn:Ez;
    [apply Qeq_bool_iff in Ez; rewrite Ez in Htotal; lra|].
  eexists. split; [reflexivity|].
  assert (Hnz : ~ (total_of table == 0)%Q) by (intros Hz; rewrite Hz in Htotal; lra).
  repeat split.
  - rewrite map_map. cbn [fst]. subst table. unfold fitness_table.
    rewrite map_map. cbn [fst]. apply map_id.
  - intros sf Hin. apply in_map_iff in Hin as (sf' & <- & Hin'). cbn [snd].
    apply Qlt_shift_div_l; [exact Htotal|].
    specialize (Htable _ Hin'). lra.
  - rewrite Qsum_scaled by exact Hnz.
    unfold total_of at 1. rewrite fold_left_Qplus.
    unfold total_of in Hnz. rewrite fold_left_Qplus in Hnz.
    field. intros Hz. apply Hnz. rewrite Hz. ring.
Qed.

(** What a mutation step that returns can have done. *)
Lemma mutation_cases (population out : distribution) (g g' : Rng) :
  mutation population g = (Ok out, g') ->
  out = population \/
  exists i s freq,
    nth_error population i = Some (s, freq) /\ s <> cHawk /\
    out = raise_hawk (Qmin (freq * (1 # 10)) (5 # 100))
            (set_nth population i
                     (s, (freq - Qmin (freq * (1 # 10)) (5 # 100))%Q)).
Proof.
  unfold mutation, bind. rewrite rng_random_draw.
  destruct (Qltb (draws g (pos g)) MUTATION_RATE);
    [|unfold ret; intros E; inversion E; now left].
  unfold randrange.
  destruct (len population <=? 0); [discriminate|].
  unfold randbelow, bind. rewrite rng_random_draw. unfold ret.
  set (j := Z.to_nat (Qfloor (draws (after_draws 1 g) (pos (after_draws 1 g))
                              * inject_Z (len population)))).
  unfold getitem. destruct (nth_error population j) as [[s freq]|] eqn:Hnth;
    [|discriminate].
  unfold ret. destruct (class_eqb s cHawk) eqn:Es; cbn [negb].
  - intros E; inversion E; now left.
  - unfold setitem. destruct (j <? List.length population)%nat; [|discriminate].
    unfold ret. intros E; inversion E. right. exists j, s, freq.
    repeat split; [exact Hnth|].
    intros ->. discriminate Es.
Qed.

Lemma Qsum_set_nth (population : distribution) (i : nat)
  (s t : StrategyClass) (freq freq' : Q) :
  nth_error population i = Some (s, freq) ->
  (Qsum (map snd (set_nth population i (t, freq')))
   == Qsum (map snd population) - freq + freq')%Q.
Proof.
  revert i. induction population as [|[u f] rest IH]; intros [|i] Hnth;
    cbn [nth_error] in Hnth; try discriminate.
  - inversion Hnth. subst. unfold set_nth. cbn [firstn skipn app map snd].
    rewrite !Qsum_cons. ring.
  - specialize (IH i Hnth). unfold set_nth in *.
    cbn [firstn skipn app map snd]. rewrite !Qsum_cons, IH. ring.
Qed.

Lemma Qsum_raise_hawk (mutation_amount : Q) (population : distribution) :
  In cHawk (map fst population) ->
  (Qsum (map snd (raise_hawk mutation_amount population))
   == Qsum (map snd population) + mutation_amount)%Q.
Proof.
  induction population as [|[st fr] rest IH]; cbn [map In fst]; [tauto|].
  intros Hin. cbn [raise_hawk].
  destruct (class_eqb st cHawk) eqn:E; cbn [map snd]; rewrite !Qsum_cons.
  - ring.
  - destruct Hin as [-> | Hin]; [discriminate E|]. rewrite (IH Hin). ring.
Qed.

Lemma map_fst_set_nth (population : distribution) (i : nat)
  (s : StrategyClass) (freq freq' : Q) :
  nth_error population i = Some (s, freq) ->
  map fst (set_nth population i (s, freq')) = map fst population.
Proof.
  revert i. induction population as [|[u f] rest IH]; intros [|i] Hnth;
    cbn [nth_error] in Hnth; try discriminate.
  - inversion Hnth. reflexivity.
  - change (set_nth ((u, f) :: rest) (Datatypes.S i) (s, freq'))
      with ((u, f) :: set_nth rest i (s, freq')).
    cbn [map]. now rewrite (IH i Hnth).
Qed.

(** With Hawk in the roster, a mutation step keeps the total. *)
Lemma mutation_keeps_total (population out : distribution) (g g' : Rng) :
  In cHawk (map fst population) ->
  mutation population g = (Ok out, g') ->
  (Qsum (map snd out) == Qsum (map snd population))%Q.
Proof.
  intros Hhawk Hrun.
  destruct (mutation_cases _ _ _ _ Hrun)
    as [-> | (i & s & freq & Hnth & Hs & ->)]; [reflexivity|].
  rewrite Qsum_raise_hawk, (Qsum_set_nth _ _ _ _ _ _ Hnth); [ring|].
  now rewrite (map_fst_set_nth _ _ _ _ _ Hnth).
Qed.

(** A generation of a roster that contains Hawk, when it returns, returns
    frequencies that sum to 1 (in exact arithmetic), whatever the input
    distribution was: frequency can only be lost when Hawk is missing from
    the roster. *)
Lemma generation_total_with_hawk (strategies : list StrategyClass)
  (population_size : Z) (population out : distribution) (g g' : Rng) :
  In cHawk strategies ->
  generation strategies population_size population g = (Ok out, g') ->
  (Qsum (map snd out) == 1)%Q.
Proof.
  intros Hhawk. unfold generation, bind.
  destruct (sampling strategies population population_size g)
    as [[individuals|e] g1]; [|discriminate].
  destruct (contest_phase population_size individuals g1)
    as [[r|e] g2]; [|discriminate].
  destruct (normalize_distribution strategies
              (aggregate strategies (fst r) (snd r)) g2)
    as (normalized & -> & Hkinds & _ & Hsum);
    [intros ->; destruct Hhawk|].
  intros Hrun.
  rewrite (mutation_keeps_total _ _ _ _ (eq_ind_r _ Hhawk Hkinds) Hrun).
  exact Hsum.
Qed.

Lemma nth_error_raise_hawk (mutation_amount : Q) (population : distribution) :
  forall k sf,
  nth_error (raise_hawk mutation_amount population) k = Some sf ->
  exists fr,
    nth_error population k = Some (fst sf, fr) /\
    (snd sf = fr \/ snd sf = (fr + mutation_amount)%Q).
Proof.
  induction population as [|[st fr] rest IH]; intros k sf;
    cbn [raise_hawk].
  - destruct k; discriminate.
  - destruct (class_eqb st cHawk).
    + destruct k as [|k]; cbn [nth_error]; intros E.
      * inversion E. exists fr. cbn [fst snd]. auto.
      * destruct sf as [s f]. exists f. cbn [fst snd]. auto.
    + destruct k as [|k]; cbn [nth_error]; intros E.
      * inversion E. exists fr. cbn [fst snd]. auto.
      * now apply IH.
Qed.

(** Whatever the roster, a generation that returns returns non-negative
    frequencies. *)
Lemma generation_nonnegative (strategies : list StrategyClass)
  (population_size : Z) (population out : distribution) (g g' : Rng) :
  generation strategies population_size population g = (Ok out, g') ->
  forall sf, In sf out -> (0 <= snd sf)%Q.
Proof.
  unfold generation, bind.
  destruct (sampling strategies population population_size g)
    as [[individuals|e] g1]; [|discriminate].
  destruct (contest_phase population_size individuals g1)
    as [[r|e] g2]; [|discriminate].
  destruct strategies as [|s0 strategies].
  - cbn [fitness_table map normalize]. unfold ret. intros Hrun.
    destruct (mutation_cases _ _ _ _ Hrun)
      as [-> | (i & s & freq & Hnth & _)]; [intros sf []|].
    destruct i; discriminate.
  - destruct (normalize_distribution (s0 :: strategies)
                (aggregate (s0 :: strategies) (fst r) (snd r)) g2)
      as (normalized & -> & _ & Hpos & _); [discriminate|].
    intros Hrun sf Hin.
    destruct (mutation_cases _ _ _ _ Hrun)
      as [-> | (i & s & freq & Hnth & Hs & ->)];
      [apply Qlt_le_weak; now apply Hpos|].
    assert (Hi : (i < List.length normalized)%nat)
      by (apply nth_error_Some; congruence).
    assert (Hfreq : (0 < freq)%Q)
      by (apply (Hpos (s, freq)); eapply nth_error_In; eauto).
    destruct (mutation_amount_bounds freq Hfreq) as (Ha0 & _ & Ha10).
    apply In_nth_error in Hin as (k & Hk).
    apply nth_error_raise_hawk in Hk as (fr & Hk & Hsnd).
    assert (Hfr : (0 <= fr)%Q).
    { destruct (Nat.eq_dec k i) as [-> | Hki].
      - rewrite nth_error_set_nth_eq in Hk by exact Hi.
        inversion Hk. lra.
      - rewrite nth_error_set_nth_neq in Hk by assumption.
        apply Qlt_le_weak.
        apply (Hpos (fst sf, fr)). eapply nth_error_In; eauto. }
    destruct Hsnd as [-> | ->]; lra.
Qed.

(** * Further properties of play_contest *)

Section ContestInvariants.

Variable H : Type.
Variables strategyA strategyB : Strategy H.

Local Abbreviation play := (play_contest H strategyA strategyB).
Local Abbreviation reaches := (at_round H strategyA strategyB).

(** Number of 'D' moves in a history. *)
Local Abbreviation dangerous_acts h :=
  (Z.of_nat (count_occ string_dec h "D"%string)).

Lemma count_snoc (h : list string) (m : string) :
  dangerous_acts (h ++ [m])
  = dangerous_acts h + (if String.eqb m "D" then 1 else 0).
Proof.
  rewrite count_occ_app. cbn [count_occ].
  destruct (string_dec m "D") as [-> | Hm].
  - cbn. lia.
  - apply String.eqb_neq in Hm. rewrite Hm. lia.
Qed.

(** A pass of the loop body that falls through to the next round has
    appended both moves, neither of them 'R', and charged each side one
    SCRATCH if the other side's move was 'D'. *)
Lemma resolve_next (moves : Z) (l l' : locals) (A_move B_move : string)
  (w w' : World H) :
  resolve H moves l A_move B_move w = (Ok (Next l'), w') ->
  A_move <> "R"%string /\ B_move <> "R"%string /\
  A_history l' = A_history l ++ [A_move] /\
  B_history l' = B_history l ++ [B_move] /\
  A_score l' = A_score l + (if String.eqb B_move "D" then SCRATCH else 0) /\
  B_score l' = B_score l + (if String.eqb A_move "D" then SCRATCH else 0).
Proof.
  unfold resolve, dangerous_A, dangerous_B, bind.
  destruct (String.eqb_spec A_move "R"), (String.eqb_spec B_move "R");
    cbn [andb ret]; try discriminate.
  destruct (String.eqb A_move "D"), (String.eqb B_move "D");
    cbn [ret]; rewrite ?world_random_draw;
    try destruct (Qltb _ P_INJURY); cbn [ret];
    rewrite ?world_random_draw;
    try destruct (Qltb _ P_INJURY); cbn [ret];
    intros E; inversion E; cbn [A_history B_history A_score B_score];
    repeat split; try assumption; lia.
Qed.

Lemma round_body_inv (moves : Z) (l : locals) (w w' : World H) (f : flow) :
  round_body H strategyA strategyB moves l w = (Ok f, w') ->
  exists A_move B_move w2,
    resolve H moves l A_move B_move w2 = (Ok f, w').
Proof.
  unfold round_body, bind.
  destruct (choose_move strategyA (A_history l) (B_history l) w)
    as [[A_move|e] w1]; [|discriminate].
  destruct (choose_move strategyB (B_history l) (A_history l) w1)
    as [[B_move|e] w2]; [|discriminate].
  eauto.
Qed.

Lemma at_round_scores (w0 : World H) (r : nat) (l : locals) (w : World H) :
  reaches w0 r l w ->
  List.length (A_history l) = r /\ List.length (B_history l) = r /\
  A_score l = SCRATCH * dangerous_acts (B_history l) /\
  B_score l = SCRATCH * dangerous_acts (A_history l).
Proof.
  induction 1 as [w1 w2 HA HB | r l w l' w' Hreach IH Hbody].
  - cbn. repeat split; reflexivity.
  - destruct IH as (HlA & HlB & HsA & HsB).
    destruct (round_body_inv _ _ _ _ _ Hbody) as (a & b & w2 & Hres).
    destruct (resolve_next _ _ _ _ _ _ _ Hres)
      as (_ & _ & -> & -> & -> & ->).
    rewrite !length_app, !count_snoc, HlA, HlB, HsA, HsB. cbn [List.length].
    repeat split; try lia.
    + destruct (String.eqb b "D"); lia.
    + destruct (String.eqb a "D"); lia.
Qed.

(** X1: while a contest is still running, both histories have as many
    moves as rounds were played and each side's score is SCRATCH times the
    number of 'D' moves the other side has played; a contest that goes the
    full ten rounds returns exactly these scores, with no terminal bonus. *)
Theorem scratches_are_the_only_running_score (w0 : World H) (r : nat)
  (l : locals) (w : World H) :
  reaches w0 r l w ->
  List.length (A_history l) = r /\ List.length (B_history l) = r /\
  A_score l = SCRATCH * dangerous_acts (B_history l) /\
  B_score l = SCRATCH * dangerous_acts (A_history l) /\
  (r = Z.to_nat MAX_MOVES ->
   play w0 = (Ok (SCRATCH * dangerous_acts (B_history l),
                  SCRATCH * dangerous_acts (A_history l)), w)).
Proof.
  intros Hreach.
  destruct (at_round_scores _ _ _ _ Hreach) as (HlA & HlB & HsA & HsB).
  repeat split; try assumption.
  intros ->. rewrite MAX_MOVES_rounds in Hreach.
  rewrite (play_contest_at_round _ _ _ _ _ _ _ Hreach) by lia.
  cbn [Nat.sub for_range]. unfold ret. now rewrite HsA, HsB.
Qed.

(** X2: when both sides play 'R' in the same round the contest ends in
    that round with the scores accumulated so far: nobody is paid. *)
Theorem mutual_retreat_pays_nobody (w0 : World H) (r : nat) (l : locals)
  (w w1 w2 : World H) :
  reaches w0 r l w -> (r < Z.to_nat MAX_MOVES)%nat ->
  choose_move strategyA (A_history l) (B_history l) w = (Ok "R"%string, w1) ->
  choose_move strategyB (B_history l) (A_history l) w1 = (Ok "R"%string, w2) ->
  play w0 = (Ok (A_score l, B_score l), w2).
Proof.
  intros Hreach Hr HA HB. rewrite MAX_MOVES_rounds in Hr.
  apply (play_contest_decided _ _ _ _ _ _ _ _ _ Hreach Hr).
  rewrite (round_body_moves _ _ _ _ _ _ _ _ _ _ HA HB). reflexivity.
Qed.

(** X3: an exception raised by a strategy's [choose_move] ends the contest
    with that exception, at once: when A's call raises, B is not asked in
    that round. *)
Theorem strategy_error_propagates (w0 : World H) (r : nat) (l : locals)
  (w w1 : World H) (e : exn) :
  reaches w0 r l w -> (r < Z.to_nat MAX_MOVES)%nat ->
  (choose_move strategyA (A_history l) (B_history l) w = (Raise e, w1) ->
   play w0 = (Raise e, w1)) /\
  (forall A_move w2,
     choose_move strategyA (A_history l) (B_history l) w = (Ok A_move, w1) ->
     choose_move strategyB (B_history l) (A_history l) w1 = (Raise e, w2) ->
     play w0 = (Raise e, w2)).
Proof.
  intros Hreach Hr. rewrite MAX_MOVES_rounds in Hr.
  rewrite (play_contest_at_round _ _ _ _ _ _ _ Hreach) by lia.
  replace (10 - r)%nat with (Datatypes.S (10 - Datatypes.S r)) by lia.
  cbn [for_range]. unfold bind, round_body, bind.
  split.
  - intros ->. reflexivity.
  - intros A_move w2 -> ->. reflexivity.
Qed.

Lemma resolve_return_bounds (moves : Z) (l : locals) (A_move B_move : string)
  (w w' : World H) (a b : Z) :
  0 <= moves <= 9 ->
  - 2 * moves <= A_score l <= 0 -> - 2 * moves <= B_score l <= 0 ->
  resolve H moves l A_move B_move w = (Ok (Return (a, b)), w') ->
  -118 <= a <= 80 /\ -118 <= b <= 80.
Proof.
  intros Hm HA HB.
  unfold resolve, dangerous_A, dangerous_B, bind, time_bonus,
    TIME_BONUS_START, TIME_BONUS_DECREMENT, WIN_PAYOFF, SERIOUS_INJURY,
    SCRATCH.
  set (bonus := Z.max (20 - 2 * moves) 0).
  assert (Hbonus : 0 <= bonus <= 20) by lia. clearbody bonus.
  destruct (String.eqb A_move "R"), (String.eqb B_move "R"),
    (String.eqb A_move "D"), (String.eqb B_move "D");
    cbn [andb ret]; rewrite ?world_random_draw;
    try destruct (Qltb _ P_INJURY); cbn [ret];
    rewrite ?world_random_draw;
    try destruct (Qltb _ P_INJURY); cbn [ret];
    unfold ret; intros E;
    first [discriminate E | injection E; intros; lia].
Qed.

Lemma for_range_bounds (n : nat) :
  forall (moves : Z) (l : locals) (w w' : World H) (a b : Z),
  0 <= moves -> moves + Z.of_nat n <= 10 ->
  - 2 * moves <= A_score l <= 0 -> - 2 * moves <= B_score l <= 0 ->
  for_range H strategyA strategyB n moves l w = (Ok (a, b), w') ->
  -118 <= a <= 80 /\ -118 <= b <= 80.
Proof.
  induction n as [|n IH]; intros moves l w w' a b Hm Hcap HA HB;
    cbn [for_range].
  - unfold ret. intros E; inversion E. lia.
  - unfold bind.
    destruct (round_body H strategyA strategyB moves l w)
      as [[[[a' b']|l']|e] w1] eqn:Hbody; try discriminate.
    + unfold ret. intros E; inversion E; subst.
      destruct (round_body_inv _ _ _ _ _ Hbody) as (x & y & w2 & Hres).
      assert (Hm9 : 0 <= moves <= 9) by lia.
      exact (resolve_return_bounds _ _ _ _ _ _ _ _ Hm9 HA HB Hres).
    + destruct (round_body_inv _ _ _ _ _ Hbody) as (x & y & w2 & Hres).
      destruct (resolve_next _ _ _ _ _ _ _ Hres)
        as (_ & _ & _ & _ & HA' & HB').
      apply IH; try lia.
      * rewrite HA'. unfold SCRATCH. destruct (String.eqb y "D"); lia.
      * rewrite HB'. unfold SCRATCH. destruct (String.eqb x "D"); lia.
Qed.

(** X4: whatever the two strategies do and whatever the draws, a contest
    that returns pays each side at least -118 (SERIOUS_INJURY after nine
    scratches) and at most 80 (WIN_PAYOFF plus the full time bonus). *)
Theorem contest_scores_bounded (w0 : World H) (a b : Z) :
  fst (play w0) = Ok (a, b) ->
  -118 <= a <= 80 /\ -118 <= b <= 80.
Proof.
  unfold play_contest, bind.
  destruct (reset strategyA w0) as [[[]|e] w1]; [|discriminate].
  destruct (reset strategyB w1) as [[[]|e] w2]; [|discriminate].
  destruct (for_range H strategyA strategyB (Z.to_nat MAX_MOVES) 0
              (mkLocals [] [] 0 0) w2) as [[[a' b']|e] w3] eqn:Hrun;
    [|discriminate].
  cbn [fst]. intros E; inversion E; subst.
  apply (for_range_bounds _ _ _ _ _ _ _ (Z.le_refl 0)) in Hrun;
    [exact Hrun | | |]; cbn; lia.
Qed.

End ContestInvariants.

Lemma arrive_at_round (H : Type) (strategyA strategyB : Strategy H) (r : nat) :
  forall (w0 : World H) (l : locals) (w : World H),
  arrive H strategyA strategyB r w0 = Some (l, w) ->
  at_round H strategyA strategyB w0 r l w.
Proof.
  induction r as [|r IH]; intros w0 l w; cbn [arrive].
  - destruct (reset strategyA w0) as [[[]|e] w1] eqn:HA; [|discriminate].
    destruct (reset strategyB w1) as [[[]|e] w2] eqn:HB; [|discriminate].
    intros E. injection E as <- <-. now apply (at_start w1 w2).
  - destruct (arrive H strategyA strategyB r w0) as [[l0 w1]|] eqn:Hr;
      [|discriminate].
    destruct (round_body H strategyA strategyB (Z.of_nat r) l0 w1)
      as [[[scores|l']|e] w'] eqn:Hbody; try discriminate.
    intros E. injection E as <- <-.
    exact (at_next l' w' (IH _ _ _ Hr) Hbody).
Qed.

(** Hawk against Hawk with every roll failing: ten rounds, ten scratches
    each. *)
Lemma scratches_are_the_only_running_score_witness :
  fst (play_contest (obj * obj) sideA sideB
         ((new cHawk, new cHawk), rng_of []))
  = Ok (-20, -20).
Proof.
  edestruct (scratches_are_the_only_running_score (obj * obj) sideA sideB
               ((new cHawk, new cHawk), rng_of []) 10)
    as (_ & _ & _ & _ & Hdraw).
  - apply arrive_at_round. vm_compute. reflexivity.
  - rewrite Hdraw; reflexivity.
Defined.

Lemma mutual_retreat_pays_nobody_witness :
  play_contest unit retreater retreater (tt, rng_of [])
  = (Ok (0, 0), (tt, rng_of [])).
Proof.
  apply (mutual_retreat_pays_nobody unit retreater retreater
           (tt, rng_of []) 0 (mkLocals [] [] 0 0)
           (tt, rng_of []) (tt, rng_of []) (tt, rng_of [])).
  - eapply at_start; reflexivity.
  - vm_compute. lia.
  - reflexivity.
  - reflexivity.
Defined.

(** [class Strategy] itself on side A: its [choose_move] raises
    NotImplementedError in round 0. *)
Lemma strategy_error_propagates_witness :
  play_contest unit (base_strategy unit) stubborn (tt, rng_of [])
  = (Raise NotImplementedError, (tt, rng_of [])).
Proof.
  apply (strategy_error_propagates unit (base_strategy unit) stubborn
           (tt, rng_of []) 0 (mkLocals [] [] 0 0)
           (tt, rng_of []) (tt, rng_of []) NotImplementedError).
  - eapply at_start; reflexivity.
  - vm_compute. lia.
  - reflexivity.
Defined.

(** Hawk against Hawk with nineteen failing rolls and then B's injuring
    roll in round 9: side A reaches the lower bound. *)
Lemma contest_scores_bounded_witness :
  fst (play_contest (obj * obj) sideA sideB
         ((new cHawk, new cHawk), rng_of (repeat (1 # 2) 19 ++ [0%Q])))
  = Ok (-118, 42) /\
  (-118 <= -118 <= 80 /\ -118 <= 42 <= 80).
Proof.
  split; [vm_compute; reflexivity|].
  apply (contest_scores_bounded (obj * obj) sideA sideB
           ((new cHawk, new cHawk), rng_of (repeat (1 # 2) 19 ++ [0%Q]))).
  vm_compute. reflexivity.
Defined.

(** * Further properties of the strategies *)

Lemma split_at {A : Type} (l : list A) :
  forall j, (j < List.length l)%nat ->
  exists o, skipn j l = o :: skipn (Datatypes.S j) l /\
            firstn (Datatypes.S j) l = firstn j l ++ [o].
Proof.
  induction l as [|x l IH]; intros j Hj; cbn [List.length] in Hj; [lia|].
  destruct j as [|j].
  - exists x. split; reflexivity.
  - destruct (IH j) as (o & Hs & Hf); [lia|].
    exists o. cbn [skipn firstn] in *. rewrite Hs.
    split; [reflexivity|]. cbn [app]. f_equal. exact Hf.
Qed.

Section TraceSpec.

Variable T : Type.
Variable step : T -> list string -> list string -> string * T.
Variable opp : list string.

(** What is known of the strategy's state and own history at the top of
    round [j], and the move it is to play there. *)
Variable Inv : nat -> T -> list string -> Prop.
Variable expected : nat -> string.

Hypothesis Hstep : forall j s my,
  (j < List.length opp)%nat -> Inv j s my ->
  fst (step s my (firstn j opp)) = expected j /\
  Inv (Datatypes.S j) (snd (step s my (firstn j opp))) (my ++ [expected j]).

Lemma trace_from (n : nat) :
  forall j s my,
  (j + n = List.length opp)%nat -> Inv j s my ->
  trace step s my (firstn j opp) (skipn j opp) = map expected (seq j n).
Proof.
  induction n as [|n IH]; intros j s my Hlen HInv.
  - rewrite skipn_all2 by lia. reflexivity.
  - destruct (split_at opp j) as (o & Hs & Hf); [lia|].
    rewrite Hs. cbn [trace seq map].
    destruct (Hstep j s my) as [Hm HInv']; [lia | exact HInv |].
    destruct (step s my (firstn j opp)) as [m s'].
    cbn [fst snd] in Hm, HInv'. subst m.
    rewrite <- Hf. f_equal. apply IH; [lia | exact HInv'].
Qed.

Lemma trace_spec (s0 : T) :
  Inv 0 s0 [] ->
  trace step s0 [] [] opp = map expected (seq 0 (List.length opp)).
Proof.
  intros H0. exact (trace_from (List.length opp) 0 s0 [] eq_refl H0).
Qed.

End TraceSpec.

Section TraceRngSpec.

Variable T : Type.
Variable step : T -> list string -> list string -> Rng -> string * T * Rng.
Variable opp : list string.
Variable Inv : nat -> T -> list string -> Rng -> Prop.
Variable expected : nat -> string.

Hypothesis Hstep : forall j s my g,
  (j < List.length opp)%nat -> Inv j s my g ->
  fst (fst (step s my (firstn j opp) g)) = expected j /\
  Inv (Datatypes.S j) (snd (fst (step s my (firstn j opp) g)))
      (my ++ [expected j]) (snd (step s my (firstn j opp) g)).

Lemma trace_rng_from (n : nat) :
  forall j s my g,
  (j + n = List.length opp)%nat -> Inv j s my g ->
  trace_rng step s my (firstn j opp) (skipn j opp) g = map expected (seq j n).
Proof.
  induction n as [|n IH]; intros j s my g Hlen HInv.
  - rewrite skipn_all2 by lia. reflexivity.
  - destruct (split_at opp j) as (o & Hs & Hf); [lia|].
    rewrite Hs. cbn [trace_rng seq map].
    destruct (Hstep j s my g) as [Hm HInv']; [lia | exact HInv |].
    destruct (step s my (firstn j opp) g) as [[m s'] g'].
    cbn [fst snd] in Hm, HInv'. subst m.
    rewrite <- Hf. f_equal. apply IH; [lia | exact HInv'].
Qed.

Lemma trace_rng_spec (s0 : T) (g0 : Rng) :
  Inv 0 s0 [] g0 ->
  trace_rng step s0 [] [] opp g0 = map expected (seq 0 (List.length opp)).
Proof.
  intros H0. exact (trace_rng_from (List.length opp) 0 s0 [] g0 eq_refl H0).
Qed.

End TraceRngSpec.

(** The streak counter of Generational.Bully before the call of round j >= 1 is
    positive exactly when the opponent's move before last was 'D'. *)
Lemma gen_bully_trace (opp : list string) (self : Generational.Bully.t) :
  trace Generational.Bully.choose_move (Generational.Bully.reset self) [] [] opp
  = map (fun j =>
           if (j =? 0)%nat then "D"%string
           else if last_is "D" (firstn j opp)
                   && last_is "D" (firstn (j - 1) opp)
                then "R"%string else "C"%string)
        (seq 0 (List.length opp)).
Proof.
  apply (trace_spec _ Generational.Bully.choose_move opp
           (fun j s _ =>
              (j = O /\ s = Generational.Bully.mk true 0) \/
              ((1 <= j)%nat /\ Generational.Bully.first_move s = false /\
               0 <= Generational.Bully.d_streak s /\
               (1 <= Generational.Bully.d_streak s
                <-> last_is "D" (firstn (j - 1) opp) = true)))).
  - intros j [fm st] my Hj [[-> E] | (Hj1 & Hfm & Hst & Hprev)].
    + injection E as -> ->. split; [reflexivity|].
      right. cbn. repeat split; try lia; discriminate.
    + cbn [Generational.Bully.first_move Generational.Bully.d_streak] in *. subst fm.
      destruct j as [|j]; [lia|]. cbn [Nat.eqb].
      replace (Datatypes.S (Datatypes.S j) - 1)%nat with (Datatypes.S j) by lia.
      unfold Generational.Bully.choose_move.
      cbn [Generational.Bully.first_move Generational.Bully.d_streak].
      destruct (last_is "D" (firstn (Datatypes.S j) opp)) eqn:Elast;
        cbn [Generational.Bully.first_move Generational.Bully.d_streak andb].
      * destruct (last_is "D" (firstn (Datatypes.S j - 1) opp)) eqn:Eprev.
        -- assert (1 <= st) by (now apply Hprev).
           destruct (Z.leb_spec 2 (st + 1)); [|lia].
           split; [reflexivity|]. right. cbn. repeat split; try lia.
        -- assert (~ 1 <= st) by (intros Hc; apply Hprev in Hc; discriminate).
           destruct (Z.leb_spec 2 (st + 1)); [lia|].
           split; [reflexivity|]. right. cbn. repeat split; try lia.
      * change (2 <=? 0) with false.
        split; [reflexivity|]. right. cbn.
        repeat split; try lia; discriminate.
  - left. split; reflexivity.
Qed.

(** The streak counter of Original.Bully before the call of round j >= 1 is
    positive exactly when the opponent's move before last was 'D'. *)
Lemma orig_bully_trace (opp : list string) (self : Original.Bully.t) :
  trace Original.Bully.choose_move (Original.Bully.reset self) [] [] opp
  = map (fun j =>
           if (j =? 0)%nat then "D"%string
           else if last_is "D" (firstn j opp)
                   && last_is "D" (firstn (j - 1) opp)
                then "R"%string else "C"%string)
        (seq 0 (List.length opp)).
Proof.
  apply (trace_spec _ Original.Bully.choose_move opp
           (fun j s _ =>
              (j = O /\ s = Original.Bully.mk true 0) \/
              ((1 <= j)%nat /\ Original.Bully.first_move s = false /\
               0 <= Original.Bully.d_streak s /\
               (1 <= Original.Bully.d_streak s
                <-> last_is "D" (firstn (j - 1) opp) = true)))).
  - intros j [fm st] my Hj [[-> E] | (Hj1 & Hfm & Hst & Hprev)].
    + injection E as -> ->. split; [reflexivity|].
      right. cbn. repeat split; try lia; discriminate.
    + cbn [Original.Bully.first_move Original.Bully.d_streak] in *. subst fm.
      destruct j as [|j]; [lia|]. cbn [Nat.eqb].
      replace (Datatypes.S (Datatypes.S j) - 1)%nat with (Datatypes.S j) by lia.
      unfold Original.Bully.choose_move.
      cbn [Original.Bully.first_move Original.Bully.d_streak].
      destruct (last_is "D" (firstn (Datatypes.S j) opp)) eqn:Elast;
        cbn [Original.Bully.first_move Original.Bully.d_streak andb].
      * destruct (last_is "D" (firstn (Datatypes.S j - 1) opp)) eqn:Eprev.
        -- assert (1 <= st) by (now apply Hprev).
           destruct (Z.leb_spec 2 (st + 1)); [|lia].
           split; [reflexivity|]. right. cbn. repeat split; try lia.
        -- assert (~ 1 <= st) by (intros Hc; apply Hprev in Hc; discriminate).
           destruct (Z.leb_spec 2 (st + 1)); [lia|].
           split; [reflexivity|]. right. cbn. repeat split; try lia.
      * change (2 <=? 0) with false.
        split; [reflexivity|]. right. cbn.
        repeat split; try lia; discriminate.
  - left. split; reflexivity.
Qed.

(** X5: Bully, in both files, opens with 'D' and from then on plays 'R'
    exactly in the rounds where the opponent's last two moves were both
    'D', and 'C' in every other round; it has no round cap of its own. *)
Theorem bully_retreats_after_two_dangerous_acts (opp : list string)
  (so : Original.Bully.t) (sg : Generational.Bully.t) :
  let played :=
    map (fun j =>
           if (j =? 0)%nat then "D"%string
           else if last_is "D" (firstn j opp)
                   && last_is "D" (firstn (j - 1) opp)
                then "R"%string else "C"%string)
        (seq 0 (List.length opp)) in
  trace Generational.Bully.choose_move (Generational.Bully.reset sg) [] [] opp
  = played /\
  trace Original.Bully.choose_move (Original.Bully.reset so) [] [] opp
  = played.
Proof.
  split; [apply gen_bully_trace | apply orig_bully_trace].
Qed.

Lemma length_firstn_le {A : Type} (l : list A) (j : nat) :
  (j < List.length l)%nat -> len (firstn j l) = Z.of_nat j.
Proof. intros Hj. unfold len. rewrite length_firstn. lia. Qed.

Lemma gen_retaliator_trace (opp : list string)
  (self : Generational.Retaliator.t) :
  trace Generational.Retaliator.choose_move
        (Generational.Retaliator.reset self) [] [] opp
  = map (fun j =>
           if Z.of_nat j <? MAX_MOVES
           then if last_is "D" (firstn j opp) then "D"%string else "C"%string
           else "R"%string)
        (seq 0 (List.length opp)).
Proof.
  apply (trace_spec _ Generational.Retaliator.choose_move opp
           (fun j s _ => Generational.Retaliator.move_count s = Z.of_nat j)).
  - intros j [st mc] my Hj Hmc.
    cbn [Generational.Retaliator.move_count] in Hmc. subst mc.
    unfold Generational.Retaliator.choose_move.
    cbn [Generational.Retaliator.move_count Generational.Retaliator.state].
    destruct (Z.ltb_spec MAX_MOVES (Z.of_nat j + 1)),
      (Z.ltb_spec (Z.of_nat j) MAX_MOVES); try lia.
    + split; [reflexivity | cbn; lia].
    + destruct (last_is "D" (firstn j opp)); split; try reflexivity; cbn; lia.
  - reflexivity.
Qed.

Lemma orig_retaliator_trace (opp : list string)
  (self : Original.Retaliator.t) :
  trace Original.Retaliator.choose_move
        (Original.Retaliator.reset self) [] [] opp
  = map (fun j =>
           if Z.of_nat j <? MAX_MOVES
           then if last_is "D" (firstn j opp) then "D"%string else "C"%string
           else "R"%string)
        (seq 0 (List.length opp)).
Proof.
  apply (trace_spec _ Original.Retaliator.choose_move opp
           (fun j s _ =>
              Original.Retaliator.move_count s = Z.of_nat j /\
              (j = O -> Original.Retaliator.state s = "C"%string))).
  - intros j [st mc] my Hj [Hmc Hst].
    cbn [Original.Retaliator.move_count Original.Retaliator.state] in *.
    subst mc. unfold Original.Retaliator.choose_move.
    cbn [Original.Retaliator.move_count Original.Retaliator.state].
    destruct (Z.ltb_spec MAX_MOVES (Z.of_nat j + 1)),
      (Z.ltb_spec (Z.of_nat j) MAX_MOVES); try lia.
    + split; [reflexivity | cbn; split; [lia | discriminate]].
    + destruct (firstn j opp) as [|x h] eqn:Eh.
      * assert (j = O).
        { apply (f_equal (@List.length string)) in Eh.
          rewrite length_firstn in Eh. cbn in Eh. lia. }
        subst j. rewrite (Hst eq_refl). cbn.
        split; [reflexivity | split; [lia | discriminate]].
      * destruct (last_is "D" (x :: h)); cbn;
          (split; [reflexivity | split; [lia | discriminate]]).
  - split; reflexivity.
Qed.

(** X6: the Retaliator of OriginalSimulation.py, which keeps the answer in
    [self.state], and the Retaliator of GenerationalResult.py, which does
    not, play the same moves in every round of a contest: 'D' exactly when
    the opponent's most recent move was 'D' and 'C' otherwise (so 'C' in
    round 0), and 'R' from the eleventh call on. *)
Theorem retaliator_versions_agree (opp : list string)
  (so : Original.Retaliator.t) (sg : Generational.Retaliator.t) :
  let played :=
    map (fun j =>
           if Z.of_nat j <? MAX_MOVES
           then if last_is "D" (firstn j opp) then "D"%string else "C"%string
           else "R"%string)
        (seq 0 (List.length opp)) in
  trace Generational.Retaliator.choose_move
        (Generational.Retaliator.reset sg) [] [] opp = played /\
  trace Original.Retaliator.choose_move
        (Original.Retaliator.reset so) [] [] opp = played.
Proof.
  split; [apply gen_retaliator_trace | apply orig_retaliator_trace].
Qed.

(** X7: LongRetaliator plays 'D' only from round 2 on, and then exactly
    when one of the opponent's last two moves was 'D'; in round 1 it still
    plays 'C' even if the opponent opened with 'D'.  From the eleventh call
    on it plays 'R'. *)
Theorem long_retaliator_needs_two_rounds (opp : list string)
  (self : Generational.LongRetaliator.t) :
  trace Generational.LongRetaliator.choose_move
        (Generational.LongRetaliator.reset self) [] [] opp
  = map (fun j =>
           if Z.of_nat j <? MAX_MOVES
           then if (2 <=? j)%nat && py_in "D" (py_suffix 2 (firstn j opp))
                then "D"%string else "C"%string
           else "R"%string)
        (seq 0 (List.length opp)).
Proof.
  apply (trace_spec _ Generational.LongRetaliator.choose_move opp
           (fun j s _ => Generational.LongRetaliator.move_count s = Z.of_nat j)).
  - intros j [mc] my Hj Hmc.
    cbn [Generational.LongRetaliator.move_count] in Hmc. subst mc.
    unfold Generational.LongRetaliator.choose_move.
    cbn [Generational.LongRetaliator.move_count].
    rewrite (length_firstn_le opp j Hj).
    destruct (Z.ltb_spec MAX_MOVES (Z.of_nat j + 1)),
      (Z.ltb_spec (Z.of_nat j) MAX_MOVES); try lia.
    + split; [reflexivity | cbn; lia].
    + replace (2 <=? Z.of_nat j) with (2 <=? j)%nat.
      * destruct ((2 <=? j)%nat && py_in "D" (py_suffix 2 (firstn j opp)));
          split; try reflexivity; cbn; lia.
      * destruct (Nat.leb_spec 2 j), (Z.leb_spec 2 (Z.of_nat j));
          try reflexivity; lia.
  - reflexivity.
Qed.

Lemma gen_prober_unprobed (opp : list string)
  (self : Generational.ProberRetaliator.t) (g : Rng) :
  Qltb (draws g (pos g)) PROBE_PROB = false ->
  trace_rng Generational.ProberRetaliator.choose_move
            (Generational.ProberRetaliator.reset self) [] [] opp g
  = map (fun j => if Z.of_nat j <? MAX_MOVES then "C"%string else "R"%string)
        (seq 0 (List.length opp)).
Proof.
  intros Hu.
  apply (trace_rng_spec _ Generational.ProberRetaliator.choose_move opp
           (fun j s my g' =>
              List.length my = j /\
              Generational.ProberRetaliator.has_probed s = false /\
              Generational.ProberRetaliator.move_count s = Z.of_nat j /\
              (j = O -> Qltb (draws g' (pos g')) PROBE_PROB = false))).
  - intros j [mc hp] my g' Hj (Hmy & Hhp & Hmc & Hdraw).
    cbn [Generational.ProberRetaliator.move_count
         Generational.ProberRetaliator.has_probed] in *.
    subst mc hp. unfold Generational.ProberRetaliator.choose_move, len.
    cbn [Generational.ProberRetaliator.move_count
         Generational.ProberRetaliator.has_probed negb andb].
    rewrite length_app, Hmy. cbn [List.length].
    destruct (Z.ltb_spec MAX_MOVES (Z.of_nat j + 1)),
      (Z.ltb_spec (Z.of_nat j) MAX_MOVES); try lia.
    + cbn. repeat split; try lia; discriminate.
    + destruct j as [|j].
      * cbn [Z.of_nat Z.eqb]. unfold next_draw.
        rewrite (Hdraw eq_refl). cbn. repeat split; discriminate.
      * destruct (Z.eqb_spec (Z.of_nat (Datatypes.S j)) 0); [lia|].
        unfold Generational.ProberRetaliator.respond.
        cbn [Generational.ProberRetaliator.has_probed].
        destruct (last_is "D" (firstn (Datatypes.S j) opp)); cbn;
          repeat split; try lia; discriminate.
  - repeat split. intros _. exact Hu.
Qed.

Lemma orig_prober_unprobed (opp : list string)
  (self : Original.ProberRetaliator.t) (g : Rng) :
  Qltb (draws g (pos g)) PROBE_PROB = false ->
  trace_rng Original.ProberRetaliator.choose_move
            (Original.ProberRetaliator.reset self) [] [] opp g
  = map (fun j => if Z.of_nat j <? MAX_MOVES then "C"%string else "R"%string)
        (seq 0 (List.length opp)).
Proof.
  intros Hu.
  apply (trace_rng_spec _ Original.ProberRetaliator.choose_move opp
           (fun j s my g' =>
              List.length my = j /\
              Original.ProberRetaliator.has_probed s = false /\
              Original.ProberRetaliator.move_count s = Z.of_nat j /\
              Original.ProberRetaliator.state s = "C"%string /\
              (j = O -> Qltb (draws g' (pos g')) PROBE_PROB = false))).
  - intros j [st mc hp] my g' Hj (Hmy & Hhp & Hmc & Hst & Hdraw).
    cbn [Original.ProberRetaliator.move_count
         Original.ProberRetaliator.has_probed
         Original.ProberRetaliator.state] in *.
    subst mc hp st. unfold Original.ProberRetaliator.choose_move, len.
    cbn [Original.ProberRetaliator.move_count
         Original.ProberRetaliator.has_probed
         Original.ProberRetaliator.state negb andb].
    rewrite length_app, Hmy. cbn [List.length].
    destruct (Z.ltb_spec MAX_MOVES (Z.of_nat j + 1)),
      (Z.ltb_spec (Z.of_nat j) MAX_MOVES); try lia.
    + cbn. repeat split; try lia; discriminate.
    + assert (Hobs : forall h,
        Original.ProberRetaliator.observe
          (Original.ProberRetaliator.mk "C" (Z.of_nat j + 1) false) h
        = Original.ProberRetaliator.mk "C" (Z.of_nat j + 1) false).
      { intros [|x h]; [reflexivity|].
        unfold Original.ProberRetaliator.observe.
        destruct (last_is "D" (x :: h)); reflexivity. }
      destruct j as [|j].
      * cbn [Z.of_nat Z.eqb]. unfold next_draw.
        rewrite (Hdraw eq_refl), Hobs. cbn. repeat split; discriminate.
      * destruct (Z.eqb_spec (Z.of_nat (Datatypes.S j)) 0); [lia|].
        rewrite Hobs. cbn. repeat split; try lia; discriminate.
  - repeat split. intros _. exact Hu.
Qed.

(** X8: when its first draw does not make it probe, the Prober-Retaliator
    of either file plays 'C' in each of the ten rounds of a contest,
    whatever the opponent does: it never retaliates. *)
Theorem prober_without_probe_always_cooperates (opp : list string) (g : Rng)
  (so : Original.ProberRetaliator.t) (sg : Generational.ProberRetaliator.t) :
  Qltb (draws g (pos g)) PROBE_PROB = false ->
  let played :=
    map (fun j => if Z.of_nat j <? MAX_MOVES then "C"%string else "R"%string)
        (seq 0 (List.length opp)) in
  trace_rng Generational.ProberRetaliator.choose_move
            (Generational.ProberRetaliator.reset sg) [] [] opp g = played /\
  trace_rng Original.ProberRetaliator.choose_move
            (Original.ProberRetaliator.reset so) [] [] opp g = played.
Proof.
  intros Hu. split; [now apply gen_prober_unprobed | now apply orig_prober_unprobed].
Qed.

(** An opponent that plays 'D' in every one of ten rounds, and no probe
    (draw 1/2). *)
Lemma prober_without_probe_always_cooperates_witness :
  trace_rng Generational.ProberRetaliator.choose_move
            (Generational.ProberRetaliator.reset
               (Generational.ProberRetaliator.mk 0 false))
            [] [] (repeat "D"%string 10) (rng_of [])
  = repeat "C"%string 10.
Proof.
  apply (prober_without_probe_always_cooperates (repeat "D"%string 10)
           (rng_of []) (Original.ProberRetaliator.mk "C" 0 false)
           (Generational.ProberRetaliator.mk 0 false)).
  reflexivity.
Defined.

Lemma gen_mouse_trace (opp : list string) (self : Generational.Mouse.t) :
  trace Generational.Mouse.choose_move (Generational.Mouse.reset self) [] [] opp
  = map (fun j =>
           if (Z.of_nat j <? MAX_MOVES) && negb (py_in "D" (firstn j opp))
           then "C"%string else "R"%string)
        (seq 0 (List.length opp)).
Proof.
  apply (trace_spec _ Generational.Mouse.choose_move opp
           (fun j s my =>
              List.length my = j /\
              (Generational.Mouse.opponent_d_played s = true ->
               py_in "D" (firstn j opp) = true))).
  - intros j [flag] my Hj [Hmy Hflag].
    cbn [Generational.Mouse.opponent_d_played] in Hflag.
    unfold Generational.Mouse.choose_move, len. rewrite Hmy.
    destruct (split_at opp j Hj) as (o & _ & Hnext).
    destruct (py_in "D" (firstn j opp)) eqn:Ein;
      cbn [Generational.Mouse.opponent_d_played negb].
    + rewrite !Bool.andb_false_r. cbn [fst snd].
      rewrite length_app, Hnext, py_in_snoc, Ein. cbn. repeat split; lia.
    + destruct flag; [now discriminate (Hflag eq_refl)|].
      cbn [negb]. rewrite !Bool.andb_true_r.
      destruct (Z.of_nat j <? MAX_MOVES); cbn [fst snd];
        rewrite length_app; cbn; (split; [reflexivity|split; [lia|discriminate]]).
  - split; [reflexivity | discriminate].
Qed.

(** X9: Mouse, in both files, never plays 'D': within the ten rounds it
    plays 'C' as long as the opponent has played no 'D' and 'R' in every
    round after the opponent's first 'D'; from the eleventh call on it
    plays 'R'. *)
Theorem mouse_retreats_after_first_dangerous_act (opp : list string)
  (so : Original.Mouse.t) (sg : Generational.Mouse.t) :
  let played :=
    map (fun j =>
           if (Z.of_nat j <? MAX_MOVES) && negb (py_in "D" (firstn j opp))
           then "C"%string else "R"%string)
        (seq 0 (List.length opp)) in
  trace Generational.Mouse.choose_move (Generational.Mouse.reset sg) [] [] opp
  = played /\
  trace Original.Mouse.choose_move (Original.Mouse.reset so) [] [] opp
  = played.
Proof.
  cbv zeta. rewrite <- (gen_mouse_trace opp sg). split; [reflexivity|].
  apply mouse_traces_agree; [reflexivity | discriminate].
Qed.

(** * Further properties of the evolutionary engine *)

Section ContestDraws.

Variable H : Type.
Variables strategyA strategyB : Strategy H.
Hypothesis HdrawsA : draws_only H strategyA.
Hypothesis HdrawsB : draws_only H strategyB.

Lemma resolve_draws (moves : Z) (l : locals) (A_move B_move : string)
  (w w' : World H) (r : res flow) :
  resolve H moves l A_move B_move w = (r, w') ->
  exists k, snd w' = after_draws k (snd w).
Proof.
  unfold resolve, dangerous_A, dangerous_B, bind.
  destruct (String.eqb A_move "R"), (String.eqb B_move "R"),
    (String.eqb A_move "D"), (String.eqb B_move "D");
    cbn [andb ret]; rewrite ?world_random_draw;
    try destruct (Qltb _ P_INJURY); cbn [ret];
    rewrite ?world_random_draw;
    try destruct (Qltb _ P_INJURY); cbn [ret];
    unfold ret; intros E; injection E as _ <-; cbn [snd fst draws pos];
    solve [ exists 0%nat; now rewrite after_draws_0
          | exists 1%nat; reflexivity
          | exists 2%nat; reflexivity ].
Qed.

Lemma round_body_draws (moves : Z) (l : locals) (w w' : World H)
  (r : res flow) :
  round_body H strategyA strategyB moves l w = (r, w') ->
  exists k, snd w' = after_draws k (snd w).
Proof.
  unfold round_body, bind.
  destruct (choose_move strategyA (A_history l) (B_history l) w)
    as [[A_move|e] w1] eqn:HA;
    destruct (proj2 HdrawsA _ _ _ _ _ HA) as (k1 & Hk1).
  - destruct (choose_move strategyB (B_history l) (A_history l) w1)
      as [[B_move|e] w2] eqn:HB;
      destruct (proj2 HdrawsB _ _ _ _ _ HB) as (k2 & Hk2).
    + intros Hres. destruct (resolve_draws _ _ _ _ _ _ _ Hres) as (k3 & Hk3).
      exists (k3 + (k2 + k1))%nat.
      rewrite Hk3, Hk2, Hk1. unfold after_draws. cbn [draws pos].
      f_equal. lia.
    + intros E; injection E as _ <-. exists (k2 + k1)%nat.
      rewrite Hk2, Hk1. unfold after_draws. cbn [draws pos]. f_equal. lia.
  - intros E; injection E as _ <-. exists k1. exact Hk1.
Qed.

Lemma for_range_draws (n : nat) :
  forall (moves : Z) (l : locals) (w w' : World H) (r : res (Z * Z)),
  for_range H strategyA strategyB n moves l w = (r, w') ->
  exists k, snd w' = after_draws k (snd w).
Proof.
  induction n as [|n IH]; intros moves l w w' r; cbn [for_range].
  - unfold ret. intros E; injection E as _ <-.
    exists 0%nat. now rewrite after_draws_0.
  - unfold bind.
    destruct (round_body H strategyA strategyB moves l w)
      as [[[scores|l']|e] w1] eqn:Hbody;
      destruct (round_body_draws _ _ _ _ _ Hbody) as (k1 & Hk1).
    + unfold ret. intros E; injection E as _ <-. eauto.
    + intros Hrest. destruct (IH _ _ _ _ _ Hrest) as (k2 & Hk2).
      exists (k2 + k1)%nat. rewrite Hk2, Hk1, after_draws_add. reflexivity.
    + intros E; injection E as _ <-. eauto.
Qed.

(** The generator after a contest is the generator before it, advanced. *)
Lemma play_contest_draws (w w' : World H) (r : res (Z * Z)) :
  play_contest H strategyA strategyB w = (r, w') ->
  exists k, snd w' = after_draws k (snd w).
Proof.
  unfold play_contest, bind.
  destruct (reset strategyA w) as [[[]|e] w1] eqn:HA;
    destruct (proj1 HdrawsA _ _ _ HA) as (k1 & Hk1).
  - destruct (reset strategyB w1) as [[[]|e] w2] eqn:HB;
      destruct (proj1 HdrawsB _ _ _ HB) as (k2 & Hk2).
    + intros Hrun. destruct (for_range_draws _ _ _ _ _ _ Hrun) as (k3 & Hk3).
      exists (k3 + (k2 + k1))%nat.
      rewrite Hk3, Hk2, Hk1. unfold after_draws. cbn [draws pos].
      f_equal. lia.
    + intros E; injection E as _ <-. exists (k2 + k1)%nat.
      rewrite Hk2, Hk1. unfold after_draws. cbn [draws pos]. f_equal. lia.
  - intros E; injection E as _ <-. exists k1. exact Hk1.
Qed.

End ContestDraws.

Lemma obj_choose_move_draws (o : obj) (my opp : list string) (g : Rng) :
  snd (obj_choose_move o my opp g) = g \/
  snd (obj_choose_move o my opp g) = after_draws 1 g.
Proof.
  destruct o as [self| |self|self|self|self]; cbn [obj_choose_move].
  - destruct (Generational.Mouse.choose_move self my opp); now left.
  - now left.
  - destruct (Generational.Bully.choose_move self my opp); now left.
  - destruct (Generational.Retaliator.choose_move self my opp); now left.
  - unfold Generational.ProberRetaliator.choose_move, next_draw.
    destruct (MAX_MOVES <? _); [now left|].
    destruct (negb _ && _); [|now left].
    destruct (Qltb _ PROBE_PROB); now right.
  - destruct (Generational.LongRetaliator.choose_move self my opp); now left.
Qed.

Lemma instance_draws_only {H : Type} (get : H -> obj) (set : obj -> H -> H) :
  draws_only H (instance get set).
Proof.
  split.
  - intros w r w' E. cbn [instance reset] in E. injection E as _ <-.
    exists O. cbn [snd]. now destruct (snd w).
  - intros my opp w r w'. cbn [instance choose_move].
    destruct (obj_choose_move_draws (get (fst w)) my opp (snd w)) as [Hg | Hg];
      destruct (obj_choose_move (get (fst w)) my opp (snd w)) as [[m o] g];
      cbn [snd] in Hg; subst g; intros E; injection E as _ <-; cbn [snd].
    + exists O. now destruct (snd w).
    + exists 1%nat. reflexivity.
Qed.

Lemma play_pair_draws (A B : obj) (g g' : Rng)
  (r : res (Z * Z * (obj * obj))) :
  play_pair A B g = (r, g') -> exists k, g' = after_draws k g.
Proof.
  unfold play_pair.
  destruct (play_contest (obj * obj) sideA sideB (A, B, g))
    as [[scores|e] [h g1]] eqn:Hrun;
    destruct (play_contest_draws _ _ _ (instance_draws_only _ _)
                (instance_draws_only _ _) _ _ _ Hrun) as (k & Hk);
    cbn [snd] in Hk; intros E; injection E as _ <-; eauto.
Qed.

Lemma play_pair_range (A B : obj) (g g' : Rng) (a b : Z) (h : obj * obj) :
  play_pair A B g = (Ok (a, b, h), g') ->
  -118 <= a <= 80 /\ -118 <= b <= 80.
Proof.
  unfold play_pair, play_contest, bind.
  cbn [sideA sideB instance reset].
  destruct (for_range (obj * obj) sideA sideB (Z.to_nat MAX_MOVES) 0
              {| A_history := []; B_history := []; A_score := 0; B_score := 0 |}
              _) as [[[a' b']|e] [h1 g1]] eqn:Hrun; [|discriminate].
  intros E. injection E as <- <- _ _.
  apply (for_range_bounds _ _ _ _ _ _ _ _ _ _ (Z.le_refl 0)) in Hrun;
    [exact Hrun | | |]; cbn; lia.
Qed.

(** The pairing loop over an even number of individuals: every pair is
    in range, and every payoff entry is written once. *)
Lemma contest_loop_even (c : nat) :
  forall (a : nat) (individuals : list obj) (payoffs : list Z) (g : Rng),
  List.length individuals = (2 * (a + c))%nat ->
  List.length payoffs = List.length individuals ->
  (forall i p, nth_error payoffs i = Some p ->
               ((2 * a <= i)%nat -> p = 0) /\ -118 <= p <= 80) ->
  exists individuals' payoffs' k,
    contest_loop (map (fun k => (2 * k)%nat) (seq a c))
                 (individuals, payoffs) g
    = (Ok (individuals', payoffs'), after_draws k g) /\
    List.length individuals' = List.length individuals /\
    List.length payoffs' = List.length payoffs /\
    (forall i p, nth_error payoffs' i = Some p -> -118 <= p <= 80).
Proof.
  induction c as [|c IH]; intros a individuals payoffs g Hlen Hpay Hzero.
  - exists individuals, payoffs, O. cbn [seq map contest_loop].
    rewrite after_draws_0. do 3 (split; [reflexivity|]).
    intros i p Hp. now apply (Hzero i p).
  - cbn [seq map contest_loop]. unfold bind at 1. unfold contest_step, bind.
    destruct (getitem_ok individuals (2 * a) g) as (A & _ & ->); [lia|].
    destruct (getitem_ok individuals (2 * a + 1) g) as (B & _ & ->); [lia|].
    destruct (play_pair A B g) as [[[[A_score B_score] [A' B']]|e] g1] eqn:Hplay.
    2:{ destruct (play_pair_ok A B g) as (x & y & z & Hok). congruence. }
    destruct (play_pair_draws _ _ _ _ _ Hplay) as (k1 & ->).
    destruct (play_pair_range _ _ _ _ _ _ _ Hplay) as [HA HB].
    destruct (getitem_ok payoffs (2 * a) (after_draws k1 g))
      as (p & Hp & ->); [lia|].
    rewrite setitem_ok by lia.
    destruct (getitem_ok (set_nth payoffs (2 * a) (p + A_score)) (2 * a + 1)
                         (after_draws k1 g))
      as (q & Hq & ->); [rewrite length_set_nth; lia|].
    rewrite setitem_ok by (rewrite length_set_nth; lia).
    rewrite nth_error_set_nth_neq in Hq by lia.
    assert (Hp0 : p = 0) by (apply (Hzero _ _ Hp); lia).
    assert (Hq0 : q = 0) by (apply (Hzero _ _ Hq); lia).
    subst p q.
    destruct (IH (Datatypes.S a)
                 (set_nth (set_nth individuals (2 * a) A') (2 * a + 1) B')
                 (set_nth (set_nth payoffs (2 * a) (0 + A_score))
                          (2 * a + 1) (0 + B_score))
                 (after_draws k1 g))
      as (individuals' & payoffs' & k2 & Hrun & Hi' & Hp' & Hrange).
    + rewrite !length_set_nth; try lia. rewrite length_set_nth; lia.
    + rewrite !length_set_nth; try lia; rewrite length_set_nth; lia.
    + intros i x Hx.
      destruct (Nat.eq_dec i (2 * a + 1)) as [-> | Hi1].
      * rewrite nth_error_set_nth_eq in Hx
          by (rewrite length_set_nth; lia).
        injection Hx as <-. split; [lia | lia].
      * rewrite nth_error_set_nth_neq in Hx
          by (rewrite ?length_set_nth; lia).
        destruct (Nat.eq_dec i (2 * a)) as [-> | Hi2].
        -- rewrite nth_error_set_nth_eq in Hx by lia.
           injection Hx as <-. split; [lia | lia].
        -- rewrite nth_error_set_nth_neq in Hx by lia.
           destruct (Hzero _ _ Hx) as [Hz Hr]. split; [|exact Hr].
           intros Hi. apply Hz. lia.
    + exists individuals', payoffs', (k2 + k1)%nat.
      replace (a + 0 + (a + 0))%nat with (2 * a)%nat by lia.
      rewrite <- after_draws_add.
      replace (2 * a + 1)%nat with (2 * a + 1)%nat in Hrun by reflexivity.
      split; [exact Hrun|].
      rewrite Hi', Hp', !length_set_nth; try lia;
        try (rewrite length_set_nth; lia).
      do 2 (split; [reflexivity|]). exact Hrange.
Qed.

Lemma range2_even (m : nat) :
  range2 (Z.of_nat (2 * m)) = map (fun k => (2 * k)%nat) (seq 0 m).
Proof.
  unfold range2. do 2 f_equal.
  replace ((Z.of_nat (2 * m) + 1) / 2) with (Z.of_nat m).
  - apply Nat2Z.id.
  - apply Z.div_unique with (r := 1); lia.
Qed.

(** X10: with an even number of individuals the contest phase never
    indexes out of bounds: it returns as many individuals and payoffs as
    population_size, every payoff is the score of that individual's one
    contest and lies between -118 and 80, and the generator has only been
    advanced. *)
Theorem even_population_contest_phase (population_size : Z)
  (individuals : list obj) (g : Rng) :
  valid_rng g -> Z.even population_size = true -> 0 <= population_size ->
  len individuals = population_size ->
  exists individuals' payoffs k,
    contest_phase population_size individuals g
    = (Ok (individuals', payoffs), after_draws k g) /\
    len individuals' = population_size /\
    len payoffs = population_size /\
    (forall p, In p payoffs -> -118 <= p <= 80).
Proof.
  intros Hg Heven Hpos Hlen. unfold contest_phase, bind.
  destruct (shuffle_ok individuals g Hg) as (shuffled & -> & Hshuffled).
  destruct (Zeven_ex population_size) as (m & Hm);
    [now apply Zeven_bool_iff|].
  unfold len in *.
  assert (Hsize : population_size = Z.of_nat (2 * Z.to_nat m)) by lia.
  replace (range2 population_size)
    with (range2 (Z.of_nat (2 * Z.to_nat m))) by (now rewrite <- Hsize).
  rewrite range2_even.
  destruct (contest_loop_even (Z.to_nat m) 0 shuffled
              (repeat 0 (Z.to_nat population_size))
              (after_draws (List.length individuals - 1) g))
    as (individuals' & payoffs & k & Hrun & Hi & Hp & Hrange).
  - lia.
  - rewrite repeat_length. lia.
  - intros i p Hp. apply nth_error_In, repeat_spec in Hp. subst p.
    split; [reflexivity | lia].
  - exists individuals', payoffs, (k + (List.length individuals - 1))%nat.
    rewrite <- after_draws_add. split; [exact Hrun|].
    rewrite Hi, Hp, repeat_length.
    do 2 (split; [lia|]).
    intros p Hin. apply In_nth_error in Hin as (i & Hin).
    apply (Hrange i p Hin).
Qed.

Lemma even_population_contest_phase_witness :
  exists individuals' payoffs k,
    contest_phase 2 [new cMouse; new cHawk] (rng_of [])
    = (Ok (individuals', payoffs), after_draws k (rng_of [])) /\
    len individuals' = 2 /\ len payoffs = 2 /\
    (forall p, In p payoffs -> -118 <= p <= 80).
Proof.
  apply even_population_contest_phase;
    [apply valid_rng_of; reflexivity | reflexivity | lia | reflexivity].
Defined.

Lemma isinstance_eq (ind : obj) (s : StrategyClass) :
  isinstance ind s = true <-> class_of ind = s.
Proof. apply class_eqb_eq. Qed.

Lemma credit_other (strategies : list StrategyClass) (ind : obj) (payoff : Z)
  (d : dict * dict) (s : StrategyClass) :
  isinstance ind s = false ->
  fst (credit strategies ind payoff d) s = fst d s /\
  snd (credit strategies ind payoff d) s = snd d s.
Proof.
  intros Hs. induction strategies as [|s' rest IH]; cbn [credit]; [auto|].
  destruct (isinstance ind s') eqn:E; [|exact IH].
  cbn [fst snd]. unfold dict_add.
  destruct (class_eqb s s') eqn:Ess; [|auto].
  apply class_eqb_eq in Ess. subst s'. congruence.
Qed.

Lemma credit_own (strategies : list StrategyClass) (ind : obj) (payoff : Z)
  (d : dict * dict) (s : StrategyClass) :
  In s strategies -> isinstance ind s = true ->
  fst (credit strategies ind payoff d) s = fst d s + payoff /\
  snd (credit strategies ind payoff d) s = snd d s + 1.
Proof.
  intros Hin Hs. induction strategies as [|s' rest IH]; [destruct Hin|].
  cbn [credit]. destruct (isinstance ind s') eqn:E.
  - apply isinstance_eq in Hs. apply isinstance_eq in E.
    assert (s' = s) by congruence. subst s'.
    cbn [fst snd]. unfold dict_add.
    assert (Hrefl : class_eqb s s = true) by now apply class_eqb_eq.
    cbv beta. now rewrite Hs, Hrefl.
  - destruct Hin as [-> | Hin]; [congruence | now apply IH].
Qed.

Lemma aggregate_from (strategies : list StrategyClass) (s : StrategyClass)
  (played : list (obj * Z)) :
  In s strategies ->
  forall d : dict * dict,
  let result :=
    fold_left (fun d ip => credit strategies (fst ip) (snd ip) d) played d in
  let own := filter (fun ip => isinstance (fst ip) s) played in
  fst result s = fst d s + fold_right Z.add 0 (map snd own) /\
  snd result s = snd d s + len own.
Proof.
  intros Hin. unfold len.
  induction played as [|[ind pay] played IH]; intros d; cbn [fold_left filter].
  - cbn. lia.
  - specialize (IH (credit strategies ind pay d)). cbv zeta in IH.
    destruct IH as [IHp IHc]. cbn [fst snd] in *. rewrite IHp, IHc.
    destruct (isinstance ind s) eqn:E.
    + destruct (credit_own strategies ind pay d s Hin E) as [-> ->].
      cbn [map snd fold_right List.length]. lia.
    + destruct (credit_other strategies ind pay d s E) as [-> ->]. lia.
Qed.

(** X11: aggregation credits every individual to its own kind, once: for
    each kind of the roster, strat_counts holds the number of individuals
    of that kind that have a payoff entry, and strat_payoffs the sum of
    their payoffs. *)
Theorem aggregate_credits_own_kind (strategies : list StrategyClass)
  (individuals : list obj) (payoffs : list Z) (s : StrategyClass) :
  In s strategies ->
  let own :=
    filter (fun ip => isinstance (fst ip) s) (combine individuals payoffs) in
  fst (aggregate strategies individuals payoffs) s
  = fold_right Z.add 0 (map snd own) /\
  snd (aggregate strategies individuals payoffs) s = len own.
Proof.
  intros Hin own. unfold aggregate.
  destruct (aggregate_from strategies s (combine individuals payoffs) Hin
              (fun _ => 0, fun _ => 0)) as [Hp Hc].
  cbn [fst snd] in Hp, Hc. split; [rewrite Hp | rewrite Hc]; subst own; lia.
Qed.

(** Two Mice and a Hawk with payoffs 5, 7 and 11, aggregated for Mouse. *)
Lemma aggregate_credits_own_kind_witness :
  fst (aggregate [cMouse; cHawk] [new cMouse; new cHawk; new cMouse] [5; 7; 11])
      cMouse = 16 /\
  snd (aggregate [cMouse; cHawk] [new cMouse; new cHawk; new cMouse] [5; 7; 11])
      cMouse = 2.
Proof.
  apply (aggregate_credits_own_kind [cMouse; cHawk]
           [new cMouse; new cHawk; new cMouse] [5; 7; 11] cMouse).
  left. reflexivity.
Defined.

Lemma map_fst_raise_hawk (mutation_amount : Q) (population : distribution) :
  map fst (raise_hawk mutation_amount population) = map fst population.
Proof.
  induction population as [|[st fr] rest IH]; [reflexivity|].
  cbn [raise_hawk]. destruct (class_eqb st cHawk); cbn [map fst];
    [reflexivity | now rewrite IH].
Qed.

Lemma Qsum_raise_hawk_bounds (mutation_amount : Q) (population : distribution) :
  (0 <= mutation_amount)%Q ->
  (Qsum (map snd population)
   <= Qsum (map snd (raise_hawk mutation_amount population)))%Q /\
  (Qsum (map snd (raise_hawk mutation_amount population))
   <= Qsum (map snd population) + mutation_amount)%Q.
Proof.
  intros Ha. induction population as [|[st fr] rest [IHl IHu]].
  - cbn [raise_hawk map]. rewrite Qsum_nil. split; lra.
  - cbn [raise_hawk]. destruct (class_eqb st cHawk); cbn [map snd];
      rewrite !Qsum_cons; split; lra.
Qed.

Lemma mutation_roster (population out : distribution) (g g' : Rng) :
  mutation population g = (Ok out, g') ->
  map fst out = map fst population.
Proof.
  intros Hrun.
  destruct (mutation_cases _ _ _ _ Hrun)
    as [-> | (i & s & freq & Hnth & _ & ->)]; [reflexivity|].
  now rewrite map_fst_raise_hawk, (map_fst_set_nth _ _ _ _ _ Hnth).
Qed.

Lemma mutation_positive (population out : distribution) (g g' : Rng) :
  (forall sf, In sf population -> (0 < snd sf)%Q) ->
  mutation population g = (Ok out, g') ->
  forall sf, In sf out -> (0 < snd sf)%Q.
Proof.
  intros Hpos Hrun sf Hin.
  destruct (mutation_cases _ _ _ _ Hrun)
    as [-> | (i & s & freq & Hnth & Hs & ->)]; [now apply Hpos|].
  assert (Hi : (i < List.length population)%nat)
    by (apply nth_error_Some; congruence).
  assert (Hfreq : (0 < freq)%Q)
    by (apply (Hpos (s, freq)); eapply nth_error_In; eauto).
  destruct (mutation_amount_bounds freq Hfreq) as (Ha0 & _ & Ha10).
  apply In_nth_error in Hin as (k & Hk).
  apply nth_error_raise_hawk in Hk as (fr & Hk & Hsnd).
  assert (Hfr : (0 < fr)%Q).
  { destruct (Nat.eq_dec k i) as [-> | Hki].
    - rewrite nth_error_set_nth_eq in Hk by exact Hi.
      injection Hk as _ <-. lra.
    - rewrite nth_error_set_nth_neq in Hk by assumption.
      apply (Hpos (fst sf, fr)). eapply nth_error_In; eauto. }
  destruct Hsnd as [-> | ->]; lra.
Qed.

Lemma mutation_total_bounds (population out : distribution) (g g' : Rng) :
  (forall sf, In sf population -> (0 < snd sf)%Q) ->
  mutation population g = (Ok out, g') ->
  (Qsum (map snd population) - (5 # 100) <= Qsum (map snd out))%Q /\
  (Qsum (map snd out) <= Qsum (map snd population))%Q.
Proof.
  intros Hpos Hrun.
  destruct (mutation_cases _ _ _ _ Hrun)
    as [-> | (i & s & freq & Hnth & Hs & ->)]; [split; lra|].
  assert (Hfreq : (0 < freq)%Q)
    by (apply (Hpos (s, freq)); eapply nth_error_In; eauto).
  destruct (mutation_amount_bounds freq Hfreq) as (Ha0 & Hacap & _).
  set (a := Qmin (freq * (1 # 10)) (5 # 100)) in *.
  destruct (Qsum_raise_hawk_bounds a
              (set_nth population i (s, (freq - a)%Q)))
    as [Hl Hu]; [lra|].
  rewrite (Qsum_set_nth _ _ _ _ _ _ Hnth) in Hl, Hu. split; lra.
Qed.




(** What a generation that returns went through: a normalized table over
    the whole roster, then the mutation step. *)
Lemma generation_split (strategies : list StrategyClass)
  (population_size : Z) (population out : distribution) (g g' : Rng) :
  strategies <> [] ->
  generation strategies population_size population g = (Ok out, g') ->
  exists normalized g2,
    map fst normalized = strategies /\
    (forall sf, In sf normalized -> (0 < snd sf)%Q) /\
    (Qsum (map snd normalized) == 1)%Q /\
    mutation normalized g2 = (Ok out, g').
Proof.
  intros Hne. unfold generation, bind.
  destruct (sampling strategies population population_size g)
    as [[individuals|e] g1]; [|discriminate].
  destruct (contest_phase population_size individuals g1)
    as [[r|e] g2]; [|discriminate].
  destruct (normalize_distribution strategies
              (aggregate strategies (fst r) (snd r)) g2 Hne)
    as (normalized & -> & Hkinds & Hpos & Hsum).
  intros Hrun. exists normalized, g2. auto.
Qed.

(** X12: a generation that returns hands back the whole roster, in the
    order of [strategies], and gives every kind a strictly positive
    frequency, also the kinds that had no individual in the population:
    no kind ever dies out. *)
Theorem generation_keeps_roster_alive (strategies : list StrategyClass)
  (population_size : Z) (population out : distribution) (g : Rng) :
  fst (generation strategies population_size population g) = Ok out ->
  map fst out = strategies /\
  (forall sf, In sf out -> (0 < snd sf)%Q).
Proof.
  destruct (generation strategies population_size population g)
    as [[out'|e] g'] eqn:Hrun; cbn [fst]; [|discriminate].
  intros E. injection E as ->.
  destruct strategies as [|s0 strategies].
  - revert Hrun. unfold generation, bind.
    destruct (sampling [] population population_size g)
      as [[individuals|e] g1]; [|discriminate].
    destruct (contest_phase population_size individuals g1)
      as [[r|e] g2]; [|discriminate].
    cbn [fitness_table map normalize]. unfold ret. intros Hrun.
    destruct (mutation_cases _ _ _ _ Hrun)
      as [-> | (i & s & freq & Hnth & _)].
    + split; [reflexivity | intros sf []].
    + destruct i; discriminate.
  - assert (Hne : s0 :: strategies <> []) by discriminate.
    destruct (generation_split _ _ _ _ _ _ Hne Hrun)
      as (normalized & g2 & Hkinds & Hpos & _ & Hmut).
    split.
    + now rewrite (mutation_roster _ _ _ _ Hmut).
    + exact (mutation_positive _ _ _ _ Hpos Hmut).
Qed.

Lemma generation_keeps_roster_alive_witness :
  map fst [(cMouse, 12250 # 34500); (cHawk, 22250 # 34500)]
  = [cMouse; cHawk] /\
  (forall sf, In sf [(cMouse, 12250 # 34500); (cHawk, 22250 # 34500)] ->
              (0 < snd sf)%Q).
Proof.
  apply (generation_keeps_roster_alive [cMouse; cHawk] 10
           [(cMouse, 1 # 2); (cHawk, 1 # 2)] _ (rng_of [])).
  vm_compute. reflexivity.
Defined.

(** X13: the frequencies a generation returns over a non-empty roster sum
    to at most 1 and to at least 0.95, and to exactly 1 when Hawk is in the
    roster (in exact arithmetic, whatever the input distribution was): one
    generation can lose no more than the mutation cap. *)
Theorem generation_total (strategies : list StrategyClass)
  (population_size : Z) (population out : distribution) (g : Rng) :
  strategies <> [] ->
  fst (generation strategies population_size population g) = Ok out ->
  (95 # 100 <= Qsum (map snd out))%Q /\ (Qsum (map snd out) <= 1)%Q /\
  (In cHawk strategies -> (Qsum (map snd out) == 1)%Q).
Proof.
  intros Hne.
  destruct (generation strategies population_size population g)
    as [[out'|e] g'] eqn:Hrun; cbn [fst]; [|discriminate].
  intros E. injection E as ->.
  destruct (generation_split _ _ _ _ _ _ Hne Hrun)
    as (normalized & g2 & Hkinds & Hpos & Hsum & Hmut).
  destruct (mutation_total_bounds _ _ _ _ Hpos Hmut) as [Hl Hu].
  rewrite Hsum in Hl, Hu.
  repeat split; try lra.
  intros Hhawk. exact (generation_total_with_hawk _ _ _ _ _ _ Hhawk Hrun).
Qed.

Lemma generation_total_witness :
  (95 # 100 <= Qsum [12250 # 34500; 22250 # 34500])%Q /\
  (Qsum [12250 # 34500; 22250 # 34500] <= 1)%Q /\
  (In cHawk [cMouse; cHawk] ->
   (Qsum [12250 # 34500; 22250 # 34500] == 1)%Q).
Proof.
  apply (generation_total [cMouse; cHawk] 10
           [(cMouse, 1 # 2); (cHawk, 1 # 2)]
           [(cMouse, 12250 # 34500); (cHawk, 22250 # 34500)] (rng_of [])).
  - discriminate.
  - vm_compute. reflexivity.
Defined.





(** * Properties of average_payoff *)

Import Averager.

Lemma contests_loop_spec (strategyA_class strategyB_class : StrategyClass)
  (n : nat) :
  forall (A_payoffs : list Z) (g : Rng),
  exists scores k,
    contests_loop n strategyA_class strategyB_class A_payoffs g
    = (Ok (A_payoffs ++ scores), after_draws k g) /\
    List.length scores = n /\
    Forall (fun x => -118 <= x <= 80) scores.
Proof.
  induction n as [|n IH]; intros A_payoffs g.
  - exists [], O. cbn [contests_loop]. rewrite app_nil_r, after_draws_0.
    repeat split. constructor.
  - cbn [contests_loop]. unfold bind.
    destruct (play_pair (new strategyA_class) (new strategyB_class) g)
      as [[[[A_score B_score] h]|e] g1] eqn:Hplay.
    2:{ destruct (play_pair_ok (new strategyA_class) (new strategyB_class) g)
          as (x & y & z & Hok). congruence. }
    destruct (play_pair_draws _ _ _ _ _ Hplay) as (k1 & ->).
    destruct (play_pair_range _ _ _ _ _ _ _ Hplay) as [HA _].
    destruct (IH (A_payoffs ++ [A_score]) (after_draws k1 g))
      as (scores & k2 & -> & Hlen & Hall).
    exists (A_score :: scores), (k2 + k1)%nat.
    rewrite <- app_assoc, after_draws_add. cbn [app List.length].
    repeat split; [now rewrite Hlen | now constructor].
Qed.

Lemma sum_in_range (data : list Z) :
  Forall (fun x => -118 <= x <= 80) data ->
  -118 * len data <= fold_right Z.add 0 data <= 80 * len data.
Proof.
  unfold len. induction 1 as [|x data Hx Hall IH];
    cbn [fold_right List.length]; lia.
Qed.

Lemma mean_in_range {S : Type} (data : list Z) (s : S) :
  data <> [] -> Forall (fun x => -118 <= x <= 80) data ->
  exists m, mean data s = (Ok m, s) /\
            (inject_Z (-118) <= m)%Q /\ (m <= inject_Z 80)%Q.
Proof.
  intros Hne Hall. destruct (sum_in_range data Hall) as [Hlo Hhi].
  assert (Hlen : 0 < len data)
    by (unfold len; destruct data; [congruence | cbn [List.length]; lia]).
  destruct data as [|x rest]; [congruence|].
  unfold mean, ret. eexists. split; [reflexivity|].
  assert (Hlen' : (0 < inject_Z (len (x :: rest)))%Q)
    by (change 0%Q with (inject_Z 0); now rewrite <- Zlt_Qlt).
  split.
  - apply Qle_shift_div_l; [exact Hlen'|].
    rewrite <- inject_Z_mult, <- Zle_Qle. exact Hlo.
  - apply Qle_shift_div_r; [exact Hlen'|].
    rewrite <- inject_Z_mult, <- Zle_Qle. exact Hhi.
Qed.

(** X15: average_payoff needs at least one contest: with contests <= 0 it
    plays nothing and [mean] raises on the empty list (StatisticsError, a
    ValueError).  With contests >= 1 it always returns, the generator only
    advanced, and the mean payoff to side A lies between -118 and 80. *)
Theorem average_payoff_range (strategyA_class strategyB_class : StrategyClass)
  (contests : Z) (g : Rng) :
  (contests <= 0 ->
   average_payoff strategyA_class strategyB_class contests g
   = (Raise ValueError, g)) /\
  (0 < contests ->
   exists m k,
     average_payoff strategyA_class strategyB_class contests g
     = (Ok m, after_draws k g) /\
     (inject_Z (-118) <= m)%Q /\ (m <= inject_Z 80)%Q).
Proof.
  unfold average_payoff, bind. split; intros Hc.
  - replace (Z.to_nat contests) with O by lia. reflexivity.
  - destruct (contests_loop_spec strategyA_class strategyB_class
                (Z.to_nat contests) [] g)
      as (scores & k & -> & Hlen & Hall).
    cbn [app].
    destruct (mean_in_range scores (after_draws k g)) as (m & -> & Hm);
      [intros ->; cbn [List.length] in Hlen; lia | exact Hall |].
    exists m, k. split; [reflexivity | exact Hm].
Qed.

Lemma average_payoff_range_witness :
  average_payoff cHawk cMouse 0 (rng_of []) = (Raise ValueError, rng_of [])
  /\
  exists m k,
    average_payoff cHawk cMouse 3 (rng_of []) = (Ok m, after_draws k (rng_of []))
    /\ (inject_Z (-118) <= m)%Q /\ (m <= inject_Z 80)%Q.
Proof.
  split.
  - apply (average_payoff_range cHawk cMouse 0 (rng_of [])). lia.
  - apply (average_payoff_range cHawk cMouse 3 (rng_of [])). lia.
Defined.

(** Two kinds that never open with 'D' and never draw cooperate for ten
    rounds. *)
Lemma peaceful_pair (a b : StrategyClass) (g : Rng) :
  In a [cMouse; cRetaliator; cLongRetaliator] ->
  In b [cMouse; cRetaliator; cLongRetaliator] ->
  exists h, play_pair (new a) (new b) g = (Ok (0, 0, h), g).
Proof.
  intros [<- | [<- | [<- | []]]] [<- | [<- | [<- | []]]];
    eexists; destruct g; vm_compute; reflexivity.
Qed.

Lemma peaceful_contests (a b : StrategyClass) (n : nat) :
  In a [cMouse; cRetaliator; cLongRetaliator] ->
  In b [cMouse; cRetaliator; cLongRetaliator] ->
  forall (A_payoffs : list Z) (g : Rng),
  contests_loop n a b A_payoffs g = (Ok (A_payoffs ++ repeat 0 n), g).
Proof.
  intros Ha Hb. induction n as [|n IH]; intros A_payoffs g.
  - cbn [contests_loop repeat]. now rewrite app_nil_r.
  - cbn [contests_loop]. unfold bind.
    destruct (peaceful_pair a b g Ha Hb) as (h & ->).
    rewrite IH, <- app_assoc. reflexivity.
Qed.

(** X16: between Mouse, Retaliator and LongRetaliator, in any pairing,
    no dangerous act is ever played: every contest is a ten-round draw at
    (0, 0) that consumes no random draw, so average_payoff is exactly 0 for
    any number of contests and any state of the generator. *)
Theorem peaceful_matchups_average_zero (a b : StrategyClass) (contests : Z)
  (g : Rng) :
  In a [cMouse; cRetaliator; cLongRetaliator] ->
  In b [cMouse; cRetaliator; cLongRetaliator] ->
  0 < contests ->
  exists m, average_payoff a b contests g = (Ok m, g) /\ (m == 0)%Q.
Proof.
  intros Ha Hb Hc. unfold average_payoff, bind.
  rewrite (peaceful_contests a b (Z.to_nat contests) Ha Hb). cbn [app].
  destruct (Z.to_nat contests) as [|n] eqn:En; [lia|].
  cbn [repeat mean]. eexists. split; [reflexivity|].
  assert (Hsum : forall k, fold_right Z.add 0 (repeat 0 k) = 0)
    by (induction k; [reflexivity | cbn; assumption]).
  change (fold_right Z.add 0 (0 :: repeat 0 n))
    with (0 + fold_right Z.add 0 (repeat 0 n)).
  rewrite Hsum. unfold Qdiv. cbn [Z.add]. apply Qmult_0_l.
Qed.

Lemma peaceful_matchups_average_zero_witness :
  exists m,
    average_payoff cRetaliator cLongRetaliator 5 (rng_of [])
    = (Ok m, rng_of []) /\ (m == 0)%Q.
Proof.
  apply peaceful_matchups_average_zero;
    [right; left; reflexivity | right; right; left; reflexivity | lia].
Defined.

(** * Strategy objects across contests *)

Lemma obj_reset_new (o : obj) : obj_reset o = new (class_of o).
Proof. destruct o; reflexivity. Qed.

Lemma obj_choose_move_class (o : obj) (my opp : list string) (g : Rng) :
  class_of (snd (fst (obj_choose_move o my opp g))) = class_of o.
Proof.
  destruct o as [self| |self|self|self|self]; cbn [obj_choose_move].
  - destruct (Generational.Mouse.choose_move self my opp); reflexivity.
  - reflexivity.
  - destruct (Generational.Bully.choose_move self my opp); reflexivity.
  - destruct (Generational.Retaliator.choose_move self my opp); reflexivity.
  - destruct (Generational.ProberRetaliator.choose_move self my opp g)
      as [[m self'] g']; reflexivity.
  - destruct (Generational.LongRetaliator.choose_move self my opp); reflexivity.
Qed.

Lemma resolve_heap (H : Type) (moves : Z) (l : locals)
  (A_move B_move : string) (w w' : World H) (r : res flow) :
  resolve H moves l A_move B_move w = (r, w') -> fst w' = fst w.
Proof.
  unfold resolve, dangerous_A, dangerous_B, bind.
  destruct (String.eqb A_move "R"), (String.eqb B_move "R"),
    (String.eqb A_move "D"), (String.eqb B_move "D");
    cbn [andb ret]; rewrite ?world_random_draw;
    try destruct (Qltb _ P_INJURY); cbn [ret];
    rewrite ?world_random_draw;
    try destruct (Qltb _ P_INJURY); cbn [ret];
    unfold ret; intros E; injection E as _ <-; reflexivity.
Qed.

Lemma round_body_classes (moves : Z) (l : locals) (w w' : World (obj * obj))
  (r : res flow) :
  round_body (obj * obj) sideA sideB moves l w = (r, w') ->
  class_of (fst (fst w')) = class_of (fst (fst w)) /\
  class_of (snd (fst w')) = class_of (snd (fst w)).
Proof.
  unfold round_body, bind. cbn [sideA sideB instance choose_move].
  pose proof (obj_choose_move_class (fst (fst w)) (A_history l) (B_history l)
                (snd w)) as HA.
  destruct (obj_choose_move (fst (fst w)) (A_history l) (B_history l) (snd w))
    as [[a oA] g1]. cbn [fst snd] in *.
  pose proof (obj_choose_move_class (snd (fst w)) (B_history l) (A_history l)
                g1) as HB.
  destruct (obj_choose_move (snd (fst w)) (B_history l) (A_history l) g1)
    as [[b oB] g2]. cbn [fst snd] in *.
  intros Hres. apply resolve_heap in Hres. rewrite Hres. cbn [fst snd].
  split; assumption.
Qed.

Lemma for_range_classes (n : nat) :
  forall (moves : Z) (l : locals) (w w' : World (obj * obj))
         (r : res (Z * Z)),
  for_range (obj * obj) sideA sideB n moves l w = (r, w') ->
  class_of (fst (fst w')) = class_of (fst (fst w)) /\
  class_of (snd (fst w')) = class_of (snd (fst w)).
Proof.
  induction n as [|n IH]; intros moves l w w' r; cbn [for_range].
  - unfold ret. intros E; injection E as _ <-. split; reflexivity.
  - unfold bind.
    destruct (round_body (obj * obj) sideA sideB moves l w)
      as [[[scores|l']|e] w1] eqn:Hbody;
      destruct (round_body_classes _ _ _ _ _ Hbody) as [HA HB].
    + unfold ret. intros E; injection E as _ <-. split; assumption.
    + intros Hrest. destruct (IH _ _ _ _ _ Hrest) as [HA' HB'].
      split; congruence.
    + intros E; injection E as _ <-. split; assumption.
Qed.

(** X17: play_contest resets both objects before the first round, so a
    contest does not depend on what the two objects went through before:
    it runs exactly as between two fresh instances of their classes.  The
    objects it leaves behind are still instances of the same classes. *)
Theorem contest_ignores_previous_state (A B : obj) (g : Rng) :
  play_pair A B g = play_pair (new (class_of A)) (new (class_of B)) g /\
  (forall scores h g',
     play_pair A B g = (Ok (scores, h), g') ->
     class_of (fst h) = class_of A /\ class_of (snd h) = class_of B).
Proof.
  split.
  - unfold play_pair, play_contest, bind.
    cbn [sideA sideB instance reset fst snd].
    rewrite !obj_reset_new.
    replace (new (class_of (new (class_of A)))) with (new (class_of A))
      by (destruct A; reflexivity).
    replace (new (class_of (new (class_of B)))) with (new (class_of B))
      by (destruct B; reflexivity).
    reflexivity.
  - intros scores h g'. unfold play_pair, play_contest, bind.
    cbn [sideA sideB instance reset fst snd].
    destruct (for_range (obj * obj) sideA sideB (Z.to_nat MAX_MOVES) 0
                {| A_history := []; B_history := []; A_score := 0; B_score := 0 |}
                (obj_reset A, obj_reset B, g)) as [[s|e] [h1 g1]] eqn:Hrun;
      [|discriminate].
    intros E. injection E as _ <- _.
    destruct (for_range_classes _ _ _ _ _ _ Hrun) as [HA HB].
    cbn [fst snd] in HA, HB. rewrite HA, HB, !obj_reset_new.
    split; [destruct A | destruct B]; reflexivity.
Qed.
